(** * The workspace bridge of openwork: IPC handlers of [src/main/ipc/models.ts]

    A shallow embedding of the model registry and of the workspace handlers
    ([workspace:get], [workspace:set], [workspace:loadFromDisk],
    [workspace:readFile], [workspace:readBinaryFile]) together with the
    properties the specification states about them.

    The handlers are asynchronous JavaScript closures over three pieces of
    process state: the electron-store [settings] file, the thread table of
    the database module and the table of live file watchers.  They are
    embedded as state-passing functions over a [World] record; everything a
    handler does to the outside is also appended to an effect log, so that
    the order of effects can be stated. *)

From Stdlib Require Import ZArith NArith Ascii String.
From stdpp Require Import base gmap strings list option.

Open Scope string_scope.
Open Scope list_scope.

(** ** JavaScript string helpers *)

Module Js.

(** [s.startsWith(p)] *)
Fixpoint startsWith (s p : string) {struct p} : bool :=
  match p with
  | EmptyString => true
  | String c p' =>
      match s with
      | EmptyString => false
      | String d s' => Ascii.eqb c d && startsWith s' p'
      end
  end.

(** [s.slice(1)] *)
Definition slice1 (s : string) : string :=
  match s with
  | EmptyString => EmptyString
  | String _ s' => s'
  end.

(** [s.length === 0] *)
Definition isEmpty (s : string) : bool :=
  match s with EmptyString => true | _ => false end.

(** last character of a string, if any *)
Fixpoint last (s : string) : option ascii :=
  match s with
  | EmptyString => None
  | String c EmptyString => Some c
  | String _ s' => last s'
  end.

End Js.

(** ** Node's [path] module, POSIX flavour

    [path.join] and [path.resolve] belong to the Node runtime, not to the
    repository.  They are modelled after [lib/path.js]: [normalizeString]
    walks the path one [/]-separated segment at a time, drops empty and [.]
    segments, and lets [..] remove the segment before it. *)

Module Path.

Definition isSep (c : ascii) : bool := Ascii.eqb c "/"%char.

(** Segments of a path between separators; [cur] is the segment being
    read. *)
Fixpoint segments_from (cur : string) (s : string) : list string :=
  match s with
  | EmptyString => [cur]
  | String c s' =>
      if isSep c then cur :: segments_from EmptyString s'
      else segments_from (cur +:+ String c EmptyString) s'
  end.

Definition segments (s : string) : list string := segments_from EmptyString s.

(** One step of [normalizeString]: [res] is the stack of segments kept so
    far, innermost first. *)
Definition step (allowAboveRoot : bool) (res : list string) (seg : string)
  : list string :=
  if String.eqb seg "" then res
  else if String.eqb seg "." then res
  else if String.eqb seg ".." then
    match res with
    | [] => if allowAboveRoot then [".."] else []
    | top :: below =>
        if String.eqb top ".." then
          (if allowAboveRoot then ".." :: res else res)
        else below
    end
  else seg :: res.

Fixpoint join_segments (l : list string) : string :=
  match l with
  | [] => ""
  | [x] => x
  | x :: rest => x +:+ "/" +:+ join_segments rest
  end.

Definition normalizeString (path : string) (allowAboveRoot : bool) : string :=
  join_segments (rev (fold_left (step allowAboveRoot) (segments path) [])).

Definition isAbsolute (path : string) : bool :=
  match path with
  | String c _ => isSep c
  | EmptyString => false
  end.

Definition trailingSeparator (path : string) : bool :=
  match Js.last path with
  | Some c => isSep c
  | None => false
  end.

Definition normalize (path : string) : string :=
  if Js.isEmpty path then "."
  else
    let abs := isAbsolute path in
    let trail := trailingSeparator path in
    let p := normalizeString path (negb abs) in
    if Js.isEmpty p then
      (if abs then "/" else if trail then "./" else ".")
    else
      let p := if trail then p +:+ "/" else p in
      if abs then "/" +:+ p else p.

(** [path.join(a, b)] *)
Definition join (a b : string) : string :=
  match Js.isEmpty a, Js.isEmpty b with
  | true, true => "."
  | false, true => normalize a
  | true, false => normalize b
  | false, false => normalize (a +:+ "/" +:+ b)
  end.

(** [path.resolve(p)] in a process whose working directory is [cwd]
    (an absolute path). *)
Definition resolve (cwd : string) (p : string) : string :=
  let resolvedPath :=
    if Js.isEmpty p then cwd +:+ "/"
    else if isAbsolute p then p +:+ "/"
    else cwd +:+ "/" +:+ p +:+ "/" in
  "/" +:+ normalizeString resolvedPath false.

End Path.

(** ** [Buffer.toString('base64')] *)

Module Base64.

Definition alphabet : string :=
  "ABCDEFGHIJKLMNOPQRSTUVWXYZabcdefghijklmnopqrstuvwxyz0123456789+/".

Definition digit (n : N) : ascii :=
  match String.get (N.to_nat (n mod 64)) alphabet with
  | Some c => c
  | None => "="%char
  end.

Definition byte (c : ascii) : N := N_of_ascii c.

Fixpoint encode (s : string) : string :=
  match s with
  | EmptyString => EmptyString
  | String a EmptyString =>
      let n := (byte a * 65536)%N in
      String (digit (n / 262144)) (String (digit (n / 4096)) "==")
  | String a (String b EmptyString) =>
      let n := (byte a * 65536 + byte b * 256)%N in
      String (digit (n / 262144))
        (String (digit (n / 4096)) (String (digit (n / 64)) "="))
  | String a (String b (String c rest)) =>
      let n := (byte a * 65536 + byte b * 256 + byte c)%N in
      String (digit (n / 262144))
        (String (digit (n / 4096))
           (String (digit (n / 64)) (String (digit n) (encode rest))))
  end.

End Base64.

(** ** [Buffer.toString('utf-8')]

    What [fs.readFile(path, 'utf-8')] does to the bytes of the file: the
    UTF-8 decoder of the runtime, which follows the WHATWG Encoding standard.
    A well-formed sequence is kept; a byte that cannot start or continue a
    sequence ends the sequence being read, which becomes U+FFFD, and is then
    read again as the start of a new one; a sequence cut short by the end of
    the file becomes U+FFFD.  The decoded text is kept in UTF-8, so U+FFFD
    appears as the three bytes EF BF BD and well-formed text is unchanged. *)

Module Utf8.

Definition REPLACEMENT : string :=
  String "239" (String "191" (String "189" EmptyString)).

(** State of the decoder: the bytes of the sequence being read, the number
    of bytes it still needs, and the bounds for the next byte. *)
Record state := mkState {
  pending : string;
  needed : nat;
  lower : N;
  upper : N
}.

Definition initial : state := mkState EmptyString 0 128 191.

Definition between (lo hi n : N) : bool := ((lo <=? n) && (n <=? hi))%N.

(** A byte read when no sequence is open: what is emitted and the state. *)
Definition start (b : ascii) : string * state :=
  let n := N_of_ascii b in
  if (n <=? 127)%N then (String b EmptyString, initial)
  else if between 194 223 n then
    (EmptyString, mkState (String b EmptyString) 1 128 191)
  else if between 224 239 n then
    (EmptyString,
     mkState (String b EmptyString) 2
       (if (n =? 224)%N then 160 else 128)
       (if (n =? 237)%N then 159 else 191))
  else if between 240 244 n then
    (EmptyString,
     mkState (String b EmptyString) 3
       (if (n =? 240)%N then 144 else 128)
       (if (n =? 244)%N then 143 else 191))
  else (REPLACEMENT, initial).

Definition step (st : state) (b : ascii) : string * state :=
  match needed st with
  | O => start b
  | S k =>
      if between (lower st) (upper st) (N_of_ascii b) then
        let seq := pending st +:+ String b EmptyString in
        match k with
        | O => (seq, initial)
        | S _ => (EmptyString, mkState seq k 128 191)
        end
      else
        let '(out, st') := start b in (REPLACEMENT +:+ out, st')
  end.

Fixpoint decode_from (st : state) (bytes : string) : string :=
  match bytes with
  | EmptyString =>
      match needed st with
      | O => EmptyString
      | S _ => REPLACEMENT
      end
  | String b rest =>
      let '(out, st') := step st b in out +:+ decode_from st' rest
  end.

Definition decode (bytes : string) : string := decode_from initial bytes.


End Utf8.

(** ** Data model ([src/main/types.ts]) *)

(** [type ProviderId = 'anthropic' | 'openai' | 'google' | 'ollama' | 'zai'] *)
Inductive ProviderId := anthropic | openai | google | ollama | zai.

Definition providerId_string (p : ProviderId) : string :=
  match p with
  | anthropic => "anthropic"
  | openai => "openai"
  | google => "google"
  | ollama => "ollama"
  | zai => "zai"
  end.

(** [interface ModelConfig] *)
Record ModelConfig := mkModel {
  m_id : string;
  m_name : string;
  m_provider : ProviderId;
  m_model : string;
  m_description : option string;
  m_available : bool
}.

(** [interface Provider]; the catalog stores [Omit<Provider, 'hasApiKey'>]. *)
Record ProviderEntry := mkProviderEntry {
  pe_id : ProviderId;
  pe_name : string
}.

Record Provider := mkProvider {
  p_id : ProviderId;
  p_name : string;
  p_hasApiKey : bool
}.

(** [interface FileInfo]: absent optional fields are [None]. *)
Record FileInfo := mkFileInfo {
  fi_path : string;
  fi_is_dir : bool;
  fi_size : option Z;
  fi_modified_at : option string
}.

(** ** The static catalog *)

Definition PROVIDERS : list ProviderEntry :=
  [ mkProviderEntry anthropic "Anthropic";
    mkProviderEntry openai "OpenAI";
    mkProviderEntry google "Google";
    mkProviderEntry zai "Z.ai" ].

Definition AVAILABLE_MODELS : list ModelConfig :=
  let mk i n p m d a := mkModel i n p m (Some d) a in
  [
    mk "claude-opus-4-5-20251101" "Claude Opus 4.5" anthropic "claude-opus-4-5-20251101"
       "Premium model with maximum intelligence" true;
    mk "claude-sonnet-4-5-20250929" "Claude Sonnet 4.5" anthropic "claude-sonnet-4-5-20250929"
       "Best balance of intelligence, speed, and cost for agents" true;
    mk "claude-haiku-4-5-20251001" "Claude Haiku 4.5" anthropic "claude-haiku-4-5-20251001"
       "Fastest model with near-frontier intelligence" true;
    mk "claude-opus-4-1-20250805" "Claude Opus 4.1" anthropic "claude-opus-4-1-20250805"
       "Previous generation premium model with extended thinking" true;
    mk "claude-sonnet-4-20250514" "Claude Sonnet 4" anthropic "claude-sonnet-4-20250514"
       "Fast and capable previous generation model" true;
    mk "gpt-5.2" "GPT-5.2" openai "gpt-5.2"
       "Latest flagship with enhanced coding and agentic capabilities" true;
    mk "gpt-5.1" "GPT-5.1" openai "gpt-5.1"
       "Advanced reasoning and robust performance" true;
    mk "o3" "o3" openai "o3"
       "Advanced reasoning for complex problem-solving" true;
    mk "o3-mini" "o3 Mini" openai "o3-mini"
       "Cost-effective reasoning with faster response times" true;
    mk "o4-mini" "o4 Mini" openai "o4-mini"
       "Fast, efficient reasoning model succeeding o3" true;
    mk "o1" "o1" openai "o1"
       "Premium reasoning for research, coding, math and science" true;
    mk "gpt-4.1" "GPT-4.1" openai "gpt-4.1"
       "Strong instruction-following with 1M context window" true;
    mk "gpt-4.1-mini" "GPT-4.1 Mini" openai "gpt-4.1-mini"
       "Faster, smaller version balancing performance and efficiency" true;
    mk "gpt-4.1-nano" "GPT-4.1 Nano" openai "gpt-4.1-nano"
       "Most cost-efficient for lighter tasks" true;
    mk "gpt-4o" "GPT-4o" openai "gpt-4o"
       "Versatile model for text generation and comprehension" true;
    mk "gpt-4o-mini" "GPT-4o Mini" openai "gpt-4o-mini"
       "Cost-efficient variant with faster response times" true;
    mk "gemini-3-pro-preview" "Gemini 3 Pro Preview" google "gemini-3-pro-preview"
       "State-of-the-art reasoning and multimodal understanding" true;
    mk "gemini-3-flash-preview" "Gemini 3 Flash Preview" google "gemini-3-flash-preview"
       "Fast frontier-class model with low latency and cost" true;
    mk "gemini-2.5-pro" "Gemini 2.5 Pro" google "gemini-2.5-pro"
       "High-capability model for complex reasoning and coding" true;
    mk "gemini-2.5-flash" "Gemini 2.5 Flash" google "gemini-2.5-flash"
       "Lightning-fast with balance of intelligence and latency" true;
    mk "gemini-2.5-flash-lite" "Gemini 2.5 Flash Lite" google "gemini-2.5-flash-lite"
       "Fast, low-cost, high-performance model" true;
    mk "glm-4.7" "GLM-4.7" zai "glm-4.7"
       "Latest flagship model with excellent agentic coding capabilities" true;
    mk "glm-4.6v" "GLM-4.6V" zai "glm-4.6v"
       "Multimodal model with 128K context and SOTA vision understanding" true;
    mk "glm-4-plus" "GLM-4 Plus" zai "glm-4-plus"
       "Enhanced reasoning and accuracy" true;
    mk "glm-4-flash" "GLM-4 Flash" zai "glm-4-flash"
       "Fast and cost-efficient model" true;
    mk "glm-4.5" "GLM-4.5" zai "glm-4.5"
       "Advanced chain-of-thought reasoning" true;
    mk "glm-4.5-air" "GLM-4.5 Air" zai "glm-4.5-air"
       "Lightweight version with faster inference" true;
    mk "glm-4-32b-0414-128k" "GLM-4-32B-128K" zai "glm-4-32b-0414-128k"
       "32B parameter model with 128K context window" true;
    mk "glm-4.5v" "GLM-4.5V" zai "glm-4.5v"
       "Vision model supporting image understanding" true
  ].

(** ** Values and exceptions *)

(** What a [catch (e)] clause can receive: an [Error] with its message, or
    some other thrown value. *)
Inductive exn :=
| JsError (message : string)
| JsOther.

(** [e instanceof Error ? e.message : 'Unknown error'] *)
Definition error_message (e : exn) : string :=
  match e with
  | JsError m => m
  | JsOther => "Unknown error"
  end.

Inductive result (A : Type) :=
| Ok (a : A)
| Throw (e : exn).
Arguments Ok {A} a.
Arguments Throw {A} e.

(** JSON values a thread's metadata holds under [workspacePath]: the handlers
    only ever write a string or [null] there. *)
Inductive JsVal :=
| JNull
| JStr (s : string).

(** [newPath : string | null] as the JSON value stored for it *)
Definition js_of_path (p : option string) : JsVal :=
  match p with
  | Some s => JStr s
  | None => JNull
  end.

(** JavaScript truthiness of a [string | null | undefined]: the string when
    it is non-empty. *)
Definition truthy (v : option string) : option string :=
  match v with
  | Some s => if Js.isEmpty s then None else Some s
  | None => None
  end.

(** ** The filesystem as the handlers see it *)

(** [fs.Stats]: [isDirectory()], [size] and [mtime.toISOString()]. *)
Record Stats := mkStats {
  st_isDirectory : bool;
  st_size : Z;
  st_mtime : string
}.

(** A directory entry as [fs.readdir(..., { withFileTypes: true })] and the
    later calls on it see it: an entry whose [isDirectory()] is true comes
    with the outcome of [fs.readdir] on it, any other entry with the outcome
    of [fs.stat] on it. *)
#[local] Unset Elimination Schemes.
Inductive node :=
| File (st : result Stats)
| Dir (ls : result (list (string * node))).
#[local] Set Elimination Schemes.

(** The disk: what [fs.readdir] yields for a workspace root, and what
    [fs.stat] and [fs.readFile] yield for a path.  File contents are the raw
    bytes. *)
Record Disk := mkDisk {
  fs_readdir : string → result (list (string * node));
  fs_stat : string → result Stats;
  fs_readFile : string → result string
}.

(** ** Process state *)

(** A row of the thread table; [t_metadata] is the parsed JSON blob, [None]
    when the column is null. *)
Record Thread := mkThread {
  t_metadata : option (gmap string JsVal)
}.

(** Everything a handler does to the outside, in the order it happens. *)
Inductive Effect :=
| StoreSet (key value : string)
| StoreDelete (key : string)
| DbUpdateThread (threadId : string) (md : gmap string JsVal)
| WatchStart (threadId path : string)
| WatchStop (threadId : string)
| FsReaddir (path : string)
| FsStat (path : string)
| FsReadFile (path : string).

Definition is_fs (e : Effect) : bool :=
  match e with
  | FsReaddir _ | FsStat _ | FsReadFile _ => true
  | _ => false
  end.

Record World := mkWorld {
  w_store : gmap string string;       (* electron-store 'settings' *)
  w_threads : gmap string Thread;     (* thread table of '../db' *)
  w_watchers : gmap string string;    (* live watch per thread *)
  w_log : list Effect
}.

Definition log (e : Effect) (w : World) : World :=
  mkWorld (w_store w) (w_threads w) (w_watchers w) (w_log w ++ [e]).

(** [store.get(key, default)], [store.set(key, v)], [store.delete(key)] *)
Definition store_get (key : string) (w : World) : option string :=
  w_store w !! key.

Definition store_set (key v : string) (w : World) : World :=
  log (StoreSet key v)
    (mkWorld (<[key := v]> (w_store w)) (w_threads w) (w_watchers w) (w_log w)).

Definition store_delete (key : string) (w : World) : World :=
  log (StoreDelete key)
    (mkWorld (delete key (w_store w)) (w_threads w) (w_watchers w) (w_log w)).

(** Modelled from the spec: [getThread] and [updateThread] of the database
    module [src/main/db], which is not among the sources.  [getThread] looks
    a session up by its identifier; [updateThread] replaces the metadata of
    an existing session. *)
Definition getThread (threadId : string) (w : World) : option Thread :=
  w_threads w !! threadId.

Definition updateThread (threadId : string) (md : gmap string JsVal) (w : World)
  : World :=
  log (DbUpdateThread threadId md)
    (mkWorld (w_store w)
       (alter (λ _, mkThread (Some md)) threadId (w_threads w))
       (w_watchers w) (w_log w)).

(** Modelled from the spec: [startWatching] and [stopWatching] of
    [src/main/services/workspace-watcher], which is not among the sources.
    Starting a watch for a session replaces the one it has; stopping removes
    it and does nothing when there is none. *)
Definition startWatching (threadId path : string) (w : World) : World :=
  log (WatchStart threadId path)
    (mkWorld (w_store w) (w_threads w) (<[threadId := path]> (w_watchers w))
       (w_log w)).

Definition stopWatching (threadId : string) (w : World) : World :=
  log (WatchStop threadId)
    (mkWorld (w_store w) (w_threads w) (delete threadId (w_watchers w))
       (w_log w)).

(** ** A state and exception monad for the bodies of [try] blocks *)

Definition M (S A : Type) : Type := S → result A * S.

Definition ret {S A} (a : A) : M S A := λ s, (Ok a, s).

Definition throw {S A} (e : exn) : M S A := λ s, (Throw e, s).

Definition bind {S A B} (m : M S A) (k : A → M S B) : M S B :=
  λ s, match m s with
       | (Ok a, s') => k a s'
       | (Throw e, s') => (Throw e, s')
       end.

(** [await] of a promise that settles with [r] *)
Definition await {S A} (r : result A) : M S A := λ s, (r, s).

Definition modify {S} (f : S → S) : M S unit := λ s, (Ok tt, f s).

Notation "'let!' x ':=' m 'in' k" := (bind m (λ x, k))
  (at level 10, x name, m at level 100, k at level 200, only parsing).
Notation "m '>>' k" := (bind m (λ _, k))
  (at level 100, k at level 200, right associativity, only parsing).

(** [try { body } catch (e) { handler }] *)
Definition try_catch {S R} (body : M S R) (handler : exn → R) : S → R * S :=
  λ s, match body s with
       | (Ok r, s') => (r, s')
       | (Throw e, s') => (handler e, s')
       end.

(** ** The handlers registered by [registerModelHandlers] *)

Definition DEFAULT_MODEL : string := "claude-sonnet-4-5-20250929".

(** [thread?.metadata ? JSON.parse(thread.metadata) : {}] *)
Definition metadata_of (thread : option Thread) : gmap string JsVal :=
  match thread with
  | Some th =>
      match t_metadata th with
      | Some md => md
      | None => ∅
      end
  | None => ∅
  end.

(** [metadata.workspacePath] read as a [string | null]; a missing key reads
    as [undefined]. *)
Definition workspacePath_of (md : gmap string JsVal) : option string :=
  match md !! "workspacePath" with
  | Some (JStr s) => Some s
  | Some JNull => None
  | None => None
  end.

(** The filter of the traversal:
    [entry.name.startsWith('.') || entry.name === 'node_modules'] *)
Definition skipped (name : string) : bool :=
  Js.startsWith name "." || String.eqb name "node_modules".

(** State of one [workspace:loadFromDisk] call: the [files] array the
    closure [readDir] pushes to, and the world. *)
Definition Trav : Type := list FileInfo * World.

Definition push (f : FileInfo) : M Trav unit :=
  modify (λ s : Trav, (s.1 ++ [f], s.2)).

Definition fs_effect (e : Effect) : M Trav unit :=
  modify (λ s : Trav, (s.1, log e s.2)).

(** [relativePath ? `${relativePath}/${entry.name}` : entry.name] *)
Definition child_path (relativePath name : string) : string :=
  if Js.isEmpty relativePath then name else relativePath +:+ "/" +:+ name.

Definition dir_info (relPath : string) : FileInfo :=
  mkFileInfo ("/" +:+ relPath) true None None.

Definition file_info (relPath : string) (stat : Stats) : FileInfo :=
  mkFileInfo ("/" +:+ relPath) false (Some (st_size stat)) (Some (st_mtime stat)).

(** The body of the [for (const entry of entries)] loop of [readDir], for the
    entry [name] of the directory [dirPath]; the recursive call
    [readDir(fullPath, relPath)] is the inner loop over the entries of the
    subdirectory. *)
Fixpoint readEntry (dirPath relativePath name : string) (n : node) {struct n}
  : M Trav unit :=
  if skipped name then ret tt
  else
    let fullPath := Path.join dirPath name in
    let relPath := child_path relativePath name in
    match n with
    | Dir ls =>
        push (dir_info relPath) >>
        fs_effect (FsReaddir fullPath) >>
        match ls with
        | Throw e => throw e
        | Ok entries =>
            (fix loop (es : list (string * node)) : M Trav unit :=
               match es with
               | [] => ret tt
               | (nm, child) :: rest =>
                   readEntry fullPath relPath nm child >> loop rest
               end) entries
        end
    | File st =>
        fs_effect (FsStat fullPath) >>
        let! stat := await st in
        push (file_info relPath stat)
    end.

Fixpoint forEntries (dirPath relativePath : string) (es : list (string * node))
  : M Trav unit :=
  match es with
  | [] => ret tt
  | (nm, child) :: rest =>
      readEntry dirPath relativePath nm child >>
      forEntries dirPath relativePath rest
  end.

(** [async function readDir(dirPath, relativePath = '')], given what
    [fs.readdir(dirPath, { withFileTypes: true })] settles with. *)
Definition readDir (ls : result (list (string * node)))
  (dirPath relativePath : string) : M Trav unit :=
  fs_effect (FsReaddir dirPath) >>
  let! entries := await ls in
  forEntries dirPath relativePath entries.

Inductive LoadResult :=
| LoadOk (files : list FileInfo) (workspacePath : string)
| LoadFail (error : string) (files : list FileInfo).

Inductive ReadResult :=
| ReadOk (content : string) (size : Z) (modified_at : string)
| ReadFail (error : string).

Definition NO_WORKSPACE : string := "No workspace folder linked".
Definition ACCESS_DENIED : string := "Access denied: path outside workspace".
Definition IS_A_DIRECTORY : string := "Cannot read directory as file".

(** ** The listing the specification describes

    A second description of the traversal, written from the specification
    and not from the code: depth-first, names beginning with [.] and the name
    [node_modules] filtered out before recursion, a directory listed before
    its children.  [listing_of rel es] is the listing for the entries [es] of
    a directory whose virtual path is [rel]. *)

Fixpoint listing_entry (relativePath name : string) (n : node) {struct n}
  : list FileInfo :=
  if skipped name then []
  else
    let relPath := child_path relativePath name in
    match n with
    | File (Ok stat) => [file_info relPath stat]
    | File (Throw _) => []
    | Dir (Ok entries) =>
        dir_info relPath ::
        (fix children (es : list (string * node)) : list FileInfo :=
           match es with
           | [] => []
           | (nm, child) :: rest => listing_entry relPath nm child ++ children rest
           end) entries
    | Dir (Throw _) => [dir_info relPath]
    end.

Fixpoint listing_of (relativePath : string) (es : list (string * node))
  : list FileInfo :=
  match es with
  | [] => []
  | (nm, child) :: rest =>
      listing_entry relativePath nm child ++ listing_of relativePath rest
  end.

(** The first read that fails when the entries are visited in traversal
    order, if any: [fs.stat] on a file or [fs.readdir] on a directory, in an
    entry the filter keeps. *)
Fixpoint failure_entry (name : string) (n : node) {struct n} : option exn :=
  if skipped name then None
  else
    match n with
    | File (Ok _) => None
    | File (Throw e) => Some e
    | Dir (Throw e) => Some e
    | Dir (Ok entries) =>
        (fix first (es : list (string * node)) : option exn :=
           match es with
           | [] => None
           | (nm, child) :: rest =>
               match failure_entry nm child with
               | Some e => Some e
               | None => first rest
               end
           end) entries
    end.

Fixpoint first_failure (es : list (string * node)) : option exn :=
  match es with
  | [] => None
  | (nm, child) :: rest =>
      match failure_entry nm child with
      | Some e => Some e
      | None => first_failure rest
      end
  end.

(** The containment the specification asks of the sandbox: the segments of
    the workspace root are a prefix of the segments of the target, compared
    segment by segment. *)
Fixpoint segments_prefix (root target : list string) : bool :=
  match root with
  | [] => true
  | r :: root' =>
      match target with
      | [] => false
      | t :: target' => String.eqb r t && segments_prefix root' target'
      end
  end.

(** The segments of a path that name something: the empty segments around
    separators are dropped. *)
Definition components (p : string) : list string :=
  List.filter (λ seg, negb (Js.isEmpty seg)) (Path.segments p).

Definition component_prefix (root target : string) : bool :=
  segments_prefix (components root) (components target).

(** A session is bound to the workspace root [p]: its metadata holds the
    non-empty path [p] under [workspacePath]. *)
Definition bound_to (w : World) (threadId p : string) : Prop :=
  ∃ th md,
    w_threads w !! threadId = Some th ∧
    t_metadata th = Some md ∧
    md !! "workspacePath" = Some (JStr p) ∧
    p ≠ "".

Definition unbound (w : World) (threadId : string) : Prop :=
  ∀ p, ¬ bound_to w threadId p.

(** [filePath.startsWith('/') ? filePath.slice(1) : filePath] *)
Definition strip_slash (filePath : string) : string :=
  if Js.startsWith filePath "/" then Js.slice1 filePath else filePath.

Section Handlers.

(** [hasApiKey] of [src/main/storage], which is not among the sources. *)
Variable hasApiKey : string → bool.
(** [process.cwd()], which [path.resolve] falls back on. *)
Variable cwd : string.
Variable disk : Disk.

(** [models:list] *)
Definition models_list : list ModelConfig :=
  map (λ model,
         mkModel (m_id model) (m_name model) (m_provider model)
           (m_model model) (m_description model)
           (hasApiKey (providerId_string (m_provider model))))
    AVAILABLE_MODELS.

(** [models:listProviders] *)
Definition models_listProviders : list Provider :=
  map (λ provider,
         mkProvider (pe_id provider) (pe_name provider)
           (hasApiKey (providerId_string (pe_id provider))))
    PROVIDERS.

(** [models:getDefault] and the exported [getDefaultModel] *)
Definition getDefaultModel (w : World) : string :=
  default DEFAULT_MODEL (store_get "defaultModel" w).

Definition models_getDefault (w : World) : string :=
  default DEFAULT_MODEL (store_get "defaultModel" w).

(** [models:setDefault] *)
Definition models_setDefault (modelId : string) (w : World) : World :=
  store_set "defaultModel" modelId w.

(** [workspace:get]; [threadId] is [None] when the argument is left out,
    the result is [None] for [null]. *)
Definition workspace_get (threadId : option string) (w : World)
  : option string :=
  match truthy threadId with
  | None => store_get "workspacePath" w
  | Some tid =>
      match getThread tid w with
      | None => None
      | Some thread =>
          match t_metadata thread with
          | None => None
          | Some metadata => truthy (workspacePath_of metadata)
          end
      end
  end.

(** [workspace:set] *)
Definition workspace_set (threadId : option string) (newPath : option string)
  (w : World) : option string * World :=
  match truthy threadId with
  | None =>
      match truthy newPath with
      | Some p => (newPath, store_set "workspacePath" p w)
      | None => (newPath, store_delete "workspacePath" w)
      end
  | Some tid =>
      match getThread tid w with
      | None => (None, w)
      | Some thread =>
          let metadata := metadata_of (Some thread) in
          let metadata := <["workspacePath" := js_of_path newPath]> metadata in
          let w := updateThread tid metadata w in
          match truthy newPath with
          | Some p => (newPath, startWatching tid p w)
          | None => (newPath, stopWatching tid w)
          end
      end
  end.

(** [workspace:loadFromDisk] *)
Definition workspace_loadFromDisk (threadId : string) (w : World)
  : LoadResult * World :=
  let thread := getThread threadId w in
  let metadata := metadata_of thread in
  match truthy (workspacePath_of metadata) with
  | None => (LoadFail NO_WORKSPACE [], w)
  | Some workspacePath =>
      match readDir (fs_readdir disk workspacePath) workspacePath "" ([], w) with
      | (Ok _, (files, w')) =>
          (LoadOk files workspacePath, startWatching threadId workspacePath w')
      | (Throw e, (_, w')) => (LoadFail (error_message e) [], w')
      end
  end.

(** The security check shared by the two single-file reads:
    [resolvedPath.startsWith(resolvedWorkspace)]. *)
Definition inside_workspace (workspacePath fullPath : string) : bool :=
  let resolvedPath := Path.resolve cwd fullPath in
  let resolvedWorkspace := Path.resolve cwd workspacePath in
  Js.startsWith resolvedPath resolvedWorkspace.

(** The [try] body of [workspace:readFile] and [workspace:readBinaryFile];
    [decode] is what is done to the bytes read. *)
Definition read_body (decode : string → string)
  (workspacePath filePath : string) : M World ReadResult :=
  let relativePath := strip_slash filePath in
  let fullPath := Path.join workspacePath relativePath in
  if negb (inside_workspace workspacePath fullPath) then
    ret (ReadFail ACCESS_DENIED)
  else
    modify (log (FsStat fullPath)) >>
    let! stat := await (fs_stat disk fullPath) in
    if st_isDirectory stat then ret (ReadFail IS_A_DIRECTORY)
    else
      modify (log (FsReadFile fullPath)) >>
      let! buffer := await (fs_readFile disk fullPath) in
      ret (ReadOk (decode buffer) (st_size stat) (st_mtime stat)).

Definition read_handler (decode : string → string)
  (threadId filePath : string) (w : World) : ReadResult * World :=
  let thread := getThread threadId w in
  let metadata := metadata_of thread in
  match truthy (workspacePath_of metadata) with
  | None => (ReadFail NO_WORKSPACE, w)
  | Some workspacePath =>
      try_catch (read_body decode workspacePath filePath)
        (λ e, ReadFail (error_message e)) w
  end.

(** [workspace:readFile]: the file read as ['utf-8'] text *)
Definition workspace_readFile := read_handler Utf8.decode.

(** [workspace:readBinaryFile]: the file as base64 *)
Definition workspace_readBinaryFile := read_handler Base64.encode.

End Handlers.

Section Dispatch.

Variable cwd : string.
Variable disk : Disk.

(** [workspace:select], given what the folder dialog returned: [None] when
    it was cancelled or returned no path, else the first selected path. *)
Definition workspace_select (picked : option string) (threadId : option string)
  (w : World) : option string * World :=
  match picked with
  | None => (None, w)
  | Some selectedPath =>
      match truthy threadId with
      | Some tid =>
          match getThread tid w with
          | Some thread =>
              let metadata := metadata_of (Some thread) in
              let metadata := <["workspacePath" := JStr selectedPath]> metadata in
              let w := updateThread tid metadata w in
              (Some selectedPath, startWatching tid selectedPath w)
          | None => (Some selectedPath, w)
          end
      | None => (Some selectedPath, store_set "workspacePath" selectedPath w)
      end
  end.

(** The requests of the IPC channel that reach the settings store, the
    thread table, the watchers or the disk. *)
Inductive Request :=
| ModelsGetDefault
| ModelsSetDefault (modelId : string)
| WorkspaceGet (threadId : option string)
| WorkspaceSet (threadId : option string) (path : option string)
| WorkspaceSelect (picked : option string) (threadId : option string)
| WorkspaceLoadFromDisk (threadId : string)
| WorkspaceReadFile (threadId filePath : string)
| WorkspaceReadBinaryFile (threadId filePath : string).

(** The state after a request has been served. *)
Definition serve (w : World) (r : Request) : World :=
  match r with
  | ModelsGetDefault => w
  | ModelsSetDefault modelId => models_setDefault modelId w
  | WorkspaceGet _ => w
  | WorkspaceSet threadId path => (workspace_set threadId path w).2
  | WorkspaceSelect picked threadId => (workspace_select picked threadId w).2
  | WorkspaceLoadFromDisk threadId => (workspace_loadFromDisk disk threadId w).2
  | WorkspaceReadFile threadId filePath =>
      (workspace_readFile cwd disk threadId filePath w).2
  | WorkspaceReadBinaryFile threadId filePath =>
      (workspace_readBinaryFile cwd disk threadId filePath w).2
  end.

(** The state after a sequence of requests served one at a time, each
    handler run to its end before the next request is taken.  The handlers
    are asynchronous, so this is one schedule among those the runtime allows:
    [workspace:loadFromDisk] and the single-file reads await the disk between
    reading the binding and returning (see [loadFromDisk_traverse]). *)
Definition serve_all (w : World) (rs : list Request) : World :=
  fold_left serve rs w.

Definition sets_default (r : Request) : bool :=
  match r with
  | ModelsSetDefault _ => true
  | _ => false
  end.

End Dispatch.

(** ** Sample data for the examples *)

Definition bind_thread (p : string) : Thread :=
  mkThread (Some {[ "workspacePath" := JStr p ]}).

Definition world0 : World :=
  mkWorld ∅ {[ "t1" := bind_thread "/workspace" ]} ∅ [].

Definition stat_file (n : Z) : Stats := mkStats false n "2026-01-15T10:00:00.000Z".
Definition stat_dir : Stats := mkStats true 4096 "2026-01-15T10:00:00.000Z".

Definition ENOENT : exn := JsError "ENOENT: no such file or directory".
Definition EACCES : exn := JsError "EACCES: permission denied".

(** A disk with the workspace [/workspace] (holding [.git], [node_modules]
    and [src/a.txt]) and, next to it, the directory [/workspaceX]. *)
Definition tree0 : list (string * node) :=
  [ (".git", Dir (Ok [("HEAD", File (Ok (stat_file 23)))]));
    ("node_modules", Dir (Ok [("left-pad", Dir (Throw EACCES))]));
    ("src", Dir (Ok [("a.txt", File (Ok (stat_file 5)))])) ].

Definition disk0 : Disk :=
  mkDisk
    (λ p, if String.eqb p "/workspace" then Ok tree0 else Throw ENOENT)
    (λ p, if String.eqb p "/workspace/src/a.txt" then Ok (stat_file 5)
          else if String.eqb p "/workspaceX/secret.txt" then Ok (stat_file 6)
          else if String.eqb p "/etc/passwd" then Ok (stat_file 4)
          else if String.eqb p "/workspace/src/" then Ok stat_dir
          else if String.eqb p "/workspace/src" then Ok stat_dir
          else if String.eqb p "/workspace" then Ok stat_dir
          else Throw ENOENT)
    (λ p, if String.eqb p "/workspace/src/a.txt" then Ok "hello"
          else if String.eqb p "/workspaceX/secret.txt" then Ok "secret"
          else if String.eqb p "/etc/passwd" then Ok "root"
          else Throw ENOENT).

(** ** Definitions used to state the properties *)

(** Induction over directory trees: the children of a readable directory
    satisfy the property. *)
Fixpoint node_ind (P : node → Prop)
  (HF : ∀ st, P (File st))
  (HT : ∀ e, P (Dir (Throw e)))
  (HD : ∀ es, Forall (λ p, P p.2) es → P (Dir (Ok es)))
  (n : node) {struct n} : P n :=
  match n with
  | File st => HF st
  | Dir (Throw e) => HT e
  | Dir (Ok es) =>
      HD es
        ((fix children (l : list (string * node)) : Forall (λ p, P p.2) l :=
            match l with
            | [] => Forall_nil _
            | (nm, c) :: rest =>
                Forall_cons (λ p, P p.2) (nm, c) rest
                  (node_ind P HF HT HD c) (children rest)
            end) es)
  end.

(** The world [w] after the effects [lg] have been logged. *)
Definition with_log (w : World) (lg : list Effect) : World :=
  mkWorld (w_store w) (w_threads w) (w_watchers w) (w_log w ++ lg).

(** The world [w] with another settings store. *)
Definition with_store (w : World) (store : gmap string string) : World :=
  mkWorld store (w_threads w) (w_watchers w) (w_log w).

(** An effect log that holds filesystem accesses only. *)
Definition fs_only (lg : list Effect) : Prop := Forall (λ e, is_fs e = true) lg.

(** What one entry, and what the entries of a directory, do to the [files]
    array and to the world: the listing is appended when no read fails, the
    first failure is thrown otherwise; the world only gains filesystem
    effects. *)
Definition entry_outcome (d r name : string) (n : node)
  (fs : list FileInfo) (w : World) : Prop :=
  match failure_entry name n with
  | None =>
      ∃ lg, readEntry d r name n (fs, w) =
              (Ok tt, (fs ++ listing_entry r name n, with_log w lg)) ∧
            fs_only lg
  | Some e =>
      ∃ fs' lg, readEntry d r name n (fs, w) = (Throw e, (fs', with_log w lg)) ∧
                fs_only lg
  end.

Definition entries_outcome (d r : string) (es : list (string * node))
  (fs : list FileInfo) (w : World) : Prop :=
  match first_failure es with
  | None =>
      ∃ lg, forEntries d r es (fs, w) =
              (Ok tt, (fs ++ listing_of r es, with_log w lg)) ∧
            fs_only lg
  | Some e =>
      ∃ fs' lg, forEntries d r es (fs, w) = (Throw e, (fs', with_log w lg)) ∧
                fs_only lg
  end.

(** [visited r es p sub]: starting from the directory with virtual path [r]
    and entries [es], the traversal descends into the readable directory
    with virtual path [p] and entries [sub]. *)
Inductive visited : string → list (string * node) →
                    string → list (string * node) → Prop :=
| visited_here r es name sub :
    (name, Dir (Ok sub)) ∈ es → skipped name = false →
    visited r es (child_path r name) sub
| visited_below r es name mid p sub :
    (name, Dir (Ok mid)) ∈ es → skipped name = false →
    visited (child_path r name) mid p sub →
    visited r es p sub.

(** A workspace whose directory [a] cannot be read. *)
Definition tree1 : list (string * node) :=
  [ ("a", Dir (Throw EACCES));
    ("b.txt", File (Ok (stat_file 7))) ].

Definition disk1 : Disk :=
  mkDisk
    (λ p, if String.eqb p "/workspace" then Ok tree1 else Throw ENOENT)
    (λ _, Throw ENOENT)
    (λ _, Throw ENOENT).

(** A segment with no separator in it, and one that is also not empty. *)
Fixpoint slash_free (s : string) : bool :=
  match s with
  | EmptyString => true
  | String c s' => negb (Path.isSep c) && slash_free s'
  end.

Definition proper_segment (seg : string) : Prop :=
  slash_free seg = true ∧ Js.isEmpty seg = false.

(** The disk accesses of a traversal up to and including the first one
    that fails: an entry after a failing one is not reached. *)
Fixpoint attempt_entry (dirPath name : string) (n : node) {struct n}
  : list Effect :=
  if skipped name then []
  else
    let fullPath := Path.join dirPath name in
    match n with
    | File _ => [FsStat fullPath]
    | Dir (Throw _) => [FsReaddir fullPath]
    | Dir (Ok entries) =>
        FsReaddir fullPath ::
        (fix children (es : list (string * node)) : list Effect :=
           match es with
           | [] => []
           | (nm, child) :: rest =>
               attempt_entry fullPath nm child ++
               match failure_entry nm child with
               | Some _ => []
               | None => children rest
               end
           end) entries
    end.

Fixpoint attempt_of (dirPath : string) (es : list (string * node)) : list Effect :=
  match es with
  | [] => []
  | (nm, child) :: rest =>
      attempt_entry dirPath nm child ++
      match failure_entry nm child with
      | Some _ => []
      | None => attempt_of dirPath rest
      end
  end.

(** How a traversal ends, given its first failure. *)
Definition outcome_of (failure : option exn) : result unit :=
  match failure with
  | None => Ok tt
  | Some e => Throw e
  end.


(** [workspace:loadFromDisk] in the two stretches the runtime can separate:
    up to the end of the awaited traversal, and from there to the return.
    [LoadTraversed files workspacePath] is the handler suspended with its
    local variables after a traversal in which no read failed. *)
Inductive LoadPending :=
| LoadSettled (r : LoadResult)
| LoadTraversed (files : list FileInfo) (workspacePath : string).

Definition loadFromDisk_traverse (disk : Disk) (threadId : string) (w : World)
  : LoadPending * World :=
  let thread := getThread threadId w in
  let metadata := metadata_of thread in
  match truthy (workspacePath_of metadata) with
  | None => (LoadSettled (LoadFail NO_WORKSPACE []), w)
  | Some workspacePath =>
      match readDir (fs_readdir disk workspacePath) workspacePath "" ([], w) with
      | (Ok _, (files, w')) => (LoadTraversed files workspacePath, w')
      | (Throw e, (_, w')) => (LoadSettled (LoadFail (error_message e) []), w')
      end
  end.

Definition loadFromDisk_finish (threadId : string) (p : LoadPending) (w : World)
  : LoadResult * World :=
  match p with
  | LoadSettled r => (r, w)
  | LoadTraversed files workspacePath =>
      (LoadOk files workspacePath, startWatching threadId workspacePath w)
  end.

(** ** Further definitions used to state properties of the handlers *)

(** The identifier of the last [models:setDefault] among the requests, if
    there is one. *)
Definition last_default (rs : list Request) : option string :=
  fold_left (λ acc r, match r with
                      | ModelsSetDefault modelId => Some modelId
                      | _ => acc
                      end) rs None.

(** A live watch of a session points at the path its metadata stores under
    [workspacePath]. *)
Definition watch_consistent (w : World) : Prop :=
  ∀ tid p, w_watchers w !! tid = Some p →
    metadata_of (w_threads w !! tid) !! "workspacePath" = Some (JStr p).

(** A listed entry is well formed: its virtual path is rooted at [/]; a
    directory carries neither size nor modification time, anything else
    carries both. *)
Definition well_formed_info (f : FileInfo) : Prop :=
  Js.startsWith (fi_path f) "/" = true ∧
  (if fi_is_dir f
   then fi_size f = None ∧ fi_modified_at f = None
   else is_Some (fi_size f) ∧ is_Some (fi_modified_at f)).

(** The disk accesses of a traversal in which no read fails, in order. *)
Fixpoint trace_entry (dirPath name : string) (n : node) {struct n}
  : list Effect :=
  if skipped name then []
  else
    let fullPath := Path.join dirPath name in
    match n with
    | File _ => [FsStat fullPath]
    | Dir (Throw _) => [FsReaddir fullPath]
    | Dir (Ok entries) =>
        FsReaddir fullPath ::
        (fix children (es : list (string * node)) : list Effect :=
           match es with
           | [] => []
           | (nm, child) :: rest => trace_entry fullPath nm child ++ children rest
           end) entries
    end.

Fixpoint trace_of (dirPath : string) (es : list (string * node)) : list Effect :=
  match es with
  | [] => []
  | (nm, child) :: rest => trace_entry dirPath nm child ++ trace_of dirPath rest
  end.

Definition is_readdir (e : Effect) : bool :=
  match e with FsReaddir _ => true | _ => false end.

Definition is_stat (e : Effect) : bool :=
  match e with FsStat _ => true | _ => false end.

Definition is_readFile (e : Effect) : bool :=
  match e with FsReadFile _ => true | _ => false end.

(** Number of elements of a list that pass a test. *)
Definition count {A} (f : A → bool) (l : list A) : nat :=
  length (List.filter f l).

(** In a traversal without failure there is one [fs.readdir] per directory
    listed, one [fs.stat] per other entry listed, and no [fs.readFile]. *)
Definition accesses_match (lg : list Effect) (files : list FileInfo) : Prop :=
  count is_readdir lg = count fi_is_dir files ∧
  count is_stat lg = count (λ f, negb (fi_is_dir f)) files ∧
  count is_readFile lg = 0.

(** A segment that [normalizeString] keeps as it is: no separator in it,
    not empty, neither [.] nor [..]. *)
Definition clean_segment (seg : string) : Prop :=
  slash_free seg = true ∧ seg ≠ "" ∧ seg ≠ "." ∧ seg ≠ "..".

(** The segments [Path.step] pushes, among segments other than [..]. *)
Definition kept (seg : string) : bool :=
  negb (String.eqb seg "" || String.eqb seg ".").

(** The stack of segments [normalizeString] ends with on a path. *)
Definition stack_of (p : string) : list string :=
  fold_left (Path.step false) (Path.segments p) [].

(** No segment of the path is [..]. *)
Definition no_dotdot (p : string) : Prop :=
  Forall (λ seg, seg ≠ "..") (Path.segments p).

(** ** The settings dialog ([SettingsDialog], renderer side)

    The component keeps four maps keyed by provider identifier and talks to
    the main process through [window.api.models.getApiKey] and
    [window.api.models.setApiKey].  Its event handlers are embedded as
    functions on the component state, one call at a time; the two IPC calls
    are parameters, since a promise may resolve or reject.  Keys typed by the
    user are JavaScript strings: they are modelled as their UTF-16 code
    units, because the mask is made of non-ASCII characters and the code
    measures and slices it. *)

Module SettingsDialog.

Definition ustring : Type := list N.

(** ['••••••••••••••••']: sixteen times U+2022 *)
Definition MASK : ustring := repeat 8226%N 16.

Record ProviderConfig := mkProviderConfig {
  pc_id : string;
  pc_name : string;
  pc_envVar : string;
  pc_placeholder : string
}.

Definition PROVIDERS : list ProviderConfig :=
  [ mkProviderConfig "anthropic" "Anthropic" "ANTHROPIC_API_KEY" "sk-ant-...";
    mkProviderConfig "openai" "OpenAI" "OPENAI_API_KEY" "sk-...";
    mkProviderConfig "google" "Google AI" "GOOGLE_API_KEY" "AIza...";
    mkProviderConfig "zai" "Z.ai" "ZAI_API_KEY" "Enter your Z.ai API key" ].

(** The [useState] cells of the component. *)
Record State := mkState {
  apiKeys : gmap string ustring;
  savedKeys : gmap string bool;
  showKeys : gmap string bool;
  saving : gmap string bool;
  loading : bool
}.

Definition initial : State := mkState ∅ ∅ ∅ ∅ true.

(** One turn of the loop of [loadApiKeys]: [keys] and [saved] are the two
    local records it fills. *)
Definition load_provider (getApiKey : string → result (option ustring))
  (acc : gmap string ustring * gmap string bool) (provider : ProviderConfig)
  : gmap string ustring * gmap string bool :=
  let id := pc_id provider in
  match getApiKey id with
  | Ok (Some (_ :: _)) => (<[id := MASK]> acc.1, <[id := true]> acc.2)
  | Ok (Some []) | Ok None => (<[id := []]> acc.1, <[id := false]> acc.2)
  | Throw _ => (<[id := []]> acc.1, <[id := false]> acc.2)
  end.

(** [loadApiKeys] *)
Definition loadApiKeys (getApiKey : string → result (option ustring))
  (st : State) : State :=
  let acc := fold_left (load_provider getApiKey) PROVIDERS (∅, ∅) in
  mkState acc.1 acc.2 (showKeys st) (saving st) false.

(** [saveApiKey(providerId)]: the new state and the calls of
    [window.api.models.setApiKey] it made. *)
Definition saveApiKey (setApiKey : string → ustring → result unit)
  (providerId : string) (st : State) : State * list (string * ustring) :=
  match apiKeys st !! providerId with
  | None => (st, [])
  | Some key =>
      if bool_decide (key = []) || bool_decide (key = MASK) then (st, [])
      else
        let saving1 := <[providerId := true]> (saving st) in
        match setApiKey providerId key with
        | Ok _ =>
            (mkState (<[providerId := MASK]> (apiKeys st))
               (<[providerId := true]> (savedKeys st))
               (<[providerId := false]> (showKeys st))
               (<[providerId := false]> saving1) (loading st),
             [(providerId, key)])
        | Throw _ =>
            (mkState (apiKeys st) (savedKeys st) (showKeys st)
               (<[providerId := false]> saving1) (loading st),
             [(providerId, key)])
        end
  end.

(** [handleKeyChange(providerId, value)] *)
Definition handleKeyChange (providerId : string) (value : ustring) (st : State)
  : State :=
  let value :=
    if bool_decide (apiKeys st !! providerId = Some MASK) &&
       bool_decide (16 < length value)
    then drop 16 value else value in
  mkState (<[providerId := value]> (apiKeys st))
    (<[providerId := false]> (savedKeys st))
    (showKeys st) (saving st) (loading st).

(** [toggleShowKey(providerId)]: [!prev[providerId]], a missing entry being
    falsy. *)
Definition toggleShowKey (providerId : string) (st : State) : State :=
  mkState (apiKeys st) (savedKeys st)
    (<[providerId := negb (default false (showKeys st !! providerId))]>
       (showKeys st))
    (saving st) (loading st).

(** The provider is configured according to [getApiKey]: the call resolves
    with a non-empty key. *)
Definition configured (getApiKey : string → result (option ustring))
  (id : string) : bool :=
  match getApiKey id with
  | Ok (Some (_ :: _)) => true
  | _ => false
  end.

End SettingsDialog.

(** * Examples *)

Example path_join_ex1 : Path.join "/workspace" "src/a.txt" = "/workspace/src/a.txt".
Proof. reflexivity. Qed.
Example path_join_ex2 : Path.join "/workspace" "../../etc/passwd" = "/etc/passwd".
Proof. reflexivity. Qed.
Example path_join_ex3 : Path.join "/workspace" "" = "/workspace".
Proof. reflexivity. Qed.
Example path_join_ex4 : Path.join "ws/" "a/./b/../c/" = "ws/a/c/".
Proof. reflexivity. Qed.
Example path_join_ex5 : Path.join "ws" "../.." = "..".
Proof. reflexivity. Qed.
Example path_resolve_ex1 : Path.resolve "/home/u" "/workspace/" = "/workspace".
Proof. reflexivity. Qed.
Example path_resolve_ex2 : Path.resolve "/home/u" "ws/../x" = "/home/u/x".
Proof. reflexivity. Qed.
Example path_resolve_ex3 : Path.resolve "/home/u" "/.." = "/".
Proof. reflexivity. Qed.
Example utf8_ex1 : Utf8.decode "secret" = "secret".
Proof. reflexivity. Qed.
Example utf8_ex2 :
  Utf8.decode (String "099" (String "097" (String "102" (String "233" ""))))
  = "caf" +:+ Utf8.REPLACEMENT.
Proof. reflexivity. Qed.
Example utf8_ex3 :
  Utf8.decode (String "099" (String "195" (String "169" "")))
  = String "099" (String "195" (String "169" "")).
Proof. reflexivity. Qed.
Example utf8_ex4 :
  Utf8.decode (String "226" (String "130" ""))  = Utf8.REPLACEMENT.
Proof. reflexivity. Qed.
Example utf8_ex5 :
  Utf8.decode (String "237" (String "160" (String "128" "")))
  = Utf8.REPLACEMENT +:+ Utf8.REPLACEMENT +:+ Utf8.REPLACEMENT.
Proof. reflexivity. Qed.
Example utf8_ex6 :
  Utf8.decode (String "226" (String "040" (String "161" "")))
  = Utf8.REPLACEMENT +:+ "(" +:+ Utf8.REPLACEMENT.
Proof. reflexivity. Qed.
Example base64_ex1 : Base64.encode "Man" = "TWFu".
Proof. reflexivity. Qed.
Example base64_ex2 : Base64.encode "Ma" = "TWE=".
Proof. reflexivity. Qed.
Example base64_ex3 : Base64.encode "light w" = "bGlnaHQgdw==".
Proof. reflexivity. Qed.

(** * Properties *)

(** ** Auxiliary facts *)
Lemma log_with_log e w : log e w = with_log w [e].
Proof. reflexivity. Qed.

Lemma with_log_nil w : with_log w [] = w.
Proof. destruct w. unfold with_log. simpl. by rewrite app_nil_r. Qed.

Lemma with_log_app w a b : with_log (with_log w a) b = with_log w (a ++ b).
Proof. unfold with_log. simpl. by rewrite app_assoc. Qed.

Lemma truthy_Some v p : truthy v = Some p ↔ v = Some p ∧ p ≠ "".
Proof.
  destruct v as [s|]; simpl.
  - destruct s; simpl; split.
    + discriminate.
    + intros [[= <-] Hne]. by destruct Hne.
    + intros [= <-]. split; [done | discriminate].
    + by intros [[= <-] _].
  - split; [discriminate | by intros [? _]].
Qed.

Lemma truthy_None v : truthy v = None ↔ v = None ∨ v = Some "".
Proof.
  destruct v as [s|]; simpl.
  - destruct s; simpl; split; try discriminate; auto.
    intros [?|?]; discriminate.
  - split; auto.
Qed.

Lemma truthy_id (tid : string) : tid ≠ "" → truthy (Some tid) = Some tid.
Proof. intros H. by apply truthy_Some. Qed.

Lemma workspacePath_of_Some md p :
  workspacePath_of md = Some p ↔ md !! "workspacePath" = Some (JStr p).
Proof.
  unfold workspacePath_of.
  destruct (md !! "workspacePath") as [[|s]|]; split; congruence.
Qed.

Lemma bound_lookup w tid p :
  bound_to w tid p ↔
  truthy (workspacePath_of (metadata_of (getThread tid w))) = Some p.
Proof.
  unfold bound_to, getThread, metadata_of. split.
  - intros (th & md & -> & -> & Hmd & Hne).
    apply truthy_Some. split; [|done]. by apply workspacePath_of_Some.
  - intros [Hp Hne]%truthy_Some.
    destruct (w_threads w !! tid) as [th|] eqn:Hth.
    + destruct (t_metadata th) as [md|] eqn:Hmd.
      * exists th, md. repeat split; try done. by apply workspacePath_of_Some.
      * discriminate.
    + discriminate.
Qed.

Lemma unbound_lookup w tid :
  unbound w tid ↔
  truthy (workspacePath_of (metadata_of (getThread tid w))) = None.
Proof.
  unfold unbound. split.
  - intros H.
    destruct (truthy _) as [p|] eqn:Hp; [|done].
    apply bound_lookup in Hp. by destruct (H p).
  - intros H p Hb. apply bound_lookup in Hb. congruence.
Qed.

(** The filter, in words: the name begins with a dot or is [node_modules]. *)
Lemma skipped_spec name :
  skipped name = true ↔
  (∃ rest, name = String "." rest) ∨ name = "node_modules".
Proof.
  unfold skipped. rewrite orb_true_iff. split.
  - intros [H|H].
    + left. destruct name as [|c rest]; [discriminate|].
      change (Ascii.eqb "."%char c && true = true) in H. rewrite andb_true_r in H.
      apply Ascii.eqb_eq in H. subst. eauto.
    + right. by apply String.eqb_eq.
  - intros [[rest ->] | ->]; [left | right]; reflexivity.
Qed.

(** *** The traversal, unfolded *)

Lemma readEntry_skipped d r name n s :
  skipped name = true → readEntry d r name n s = (Ok tt, s).
Proof. intros H. destruct n; simpl; by rewrite H. Qed.

Lemma forEntries_loop d r es s :
  (fix loop (es : list (string * node)) : M Trav unit :=
     match es with
     | [] => ret tt
     | (nm, child) :: rest => readEntry d r nm child >> loop rest
     end) es s = forEntries d r es s.
Proof.
  revert s. induction es as [|[nm c] rest IH]; intros s; [done|].
  simpl. unfold bind. destruct (readEntry d r nm c s) as [[[]|e] s']; [|done].
  apply IH.
Qed.

Lemma readEntry_dir d r name ls s :
  skipped name = false →
  readEntry d r name (Dir ls) s =
  (push (dir_info (child_path r name)) >>
   readDir ls (Path.join d name) (child_path r name)) s.
Proof.
  intros H. simpl. rewrite H. unfold readDir, bind, push, fs_effect, modify, await.
  destruct ls as [es|e]; [|done]. apply forEntries_loop.
Qed.

Lemma readEntry_file d r name st s :
  skipped name = false →
  readEntry d r name (File st) s =
  (fs_effect (FsStat (Path.join d name)) >>
   let! stat := await st in push (file_info (child_path r name) stat)) s.
Proof. intros H. simpl. by rewrite H. Qed.

Lemma listing_children r es :
  (fix children (es : list (string * node)) : list FileInfo :=
     match es with
     | [] => []
     | (nm, child) :: rest => listing_entry r nm child ++ children rest
     end) es = listing_of r es.
Proof. induction es as [|[nm c] rest IH]; [done|]. simpl. by rewrite IH. Qed.

Lemma listing_entry_dir r name es :
  skipped name = false →
  listing_entry r name (Dir (Ok es)) =
  dir_info (child_path r name) :: listing_of (child_path r name) es.
Proof. intros H. simpl. rewrite H. by rewrite listing_children. Qed.

Lemma failure_children es :
  (fix first (es : list (string * node)) : option exn :=
     match es with
     | [] => None
     | (nm, child) :: rest =>
         match failure_entry nm child with
         | Some e => Some e
         | None => first rest
         end
     end) es = first_failure es.
Proof. induction es as [|[nm c] rest IH]; [done|]. simpl. by rewrite IH. Qed.

Lemma failure_entry_dir name es :
  skipped name = false → failure_entry name (Dir (Ok es)) = first_failure es.
Proof. intros H. simpl. rewrite H. apply failure_children. Qed.

(** *** What a traversal does, in terms of the two pure descriptions *)

Lemma fs_only_app a b : fs_only a → fs_only b → fs_only (a ++ b).
Proof. apply Forall_app_2. Qed.

(** Closes an outcome in which nothing is listed and nothing logged. *)
Ltac no_effect :=
  exists []; rewrite with_log_nil, ?app_nil_r; split; [done | constructor].

Lemma entries_outcome_from es :
  Forall (λ p, ∀ d r name fs w, entry_outcome d r name p.2 fs w) es →
  ∀ d r fs w, entries_outcome d r es fs w.
Proof.
  induction 1 as [|[nm c] rest Hc _ IH]; intros d r fs w.
  - unfold entries_outcome. simpl. no_effect.
  - specialize (Hc d r nm fs w). simpl in Hc.
    unfold entry_outcome in Hc. unfold entries_outcome. simpl. unfold bind.
    destruct (failure_entry nm c) as [e|].
    + destruct Hc as (fs' & lg & -> & Hlg). eauto.
    + destruct Hc as (lg & -> & Hlg).
      specialize (IH d r (fs ++ listing_entry r nm c) (with_log w lg)).
      unfold entries_outcome in IH.
      destruct (first_failure rest) as [e|].
      * destruct IH as (fs' & lg' & -> & Hlg').
        exists fs', (lg ++ lg'). rewrite with_log_app.
        split; [done | by apply fs_only_app].
      * destruct IH as (lg' & -> & Hlg').
        exists (lg ++ lg'). rewrite with_log_app, app_assoc.
        split; [done | by apply fs_only_app].
Qed.

Lemma readEntry_outcome n :
  ∀ d r name fs w, entry_outcome d r name n fs w.
Proof.
  induction n as [st|e|es IH] using node_ind; intros d r name fs w;
    unfold entry_outcome; destruct (skipped name) eqn:Hskip.
  - simpl. rewrite Hskip. no_effect.
  - rewrite readEntry_file by done. simpl. rewrite Hskip.
    destruct st as [stat|e]; simpl.
    + exists [FsStat (Path.join d name)]. split; [done | by repeat constructor].
    + exists fs, [FsStat (Path.join d name)]. split; [done | by repeat constructor].
  - simpl. rewrite Hskip. no_effect.
  - rewrite readEntry_dir by done. simpl. rewrite Hskip.
    exists (fs ++ [dir_info (child_path r name)]), [FsReaddir (Path.join d name)].
    split; [done | by repeat constructor].
  - rewrite readEntry_skipped by done. simpl. rewrite Hskip. no_effect.
  - rewrite readEntry_dir, failure_entry_dir, listing_entry_dir by done.
    pose proof (entries_outcome_from es IH (Path.join d name) (child_path r name)
                  (fs ++ [dir_info (child_path r name)])
                  (with_log w [FsReaddir (Path.join d name)])) as Hes.
    unfold entries_outcome in Hes.
    unfold readDir, bind, push, fs_effect, modify, await. simpl.
    rewrite log_with_log.
    destruct (first_failure es) as [e|].
    + destruct Hes as (fs' & lg & -> & Hlg).
      exists fs', ([FsReaddir (Path.join d name)] ++ lg).
      rewrite with_log_app. split; [done|].
      apply fs_only_app; [by repeat constructor | done].
    + destruct Hes as (lg & -> & Hlg).
      exists ([FsReaddir (Path.join d name)] ++ lg).
      rewrite with_log_app, <- app_assoc. split; [done|].
      apply fs_only_app; [by repeat constructor | done].
Qed.

Lemma forEntries_outcome d r es fs w : entries_outcome d r es fs w.
Proof.
  apply entries_outcome_from, Forall_forall. intros p _. apply readEntry_outcome.
Qed.

Lemma listing_of_app r a b :
  listing_of r (a ++ b) = listing_of r a ++ listing_of r b.
Proof.
  induction a as [|[nm c] rest IH]; [done|]. simpl. by rewrite IH, app_assoc.
Qed.

Lemma forEntries_app d r a b s :
  forEntries d r (a ++ b) s = (forEntries d r a >> forEntries d r b) s.
Proof.
  revert s. induction a as [|[nm c] rest IH]; intros s; [done|].
  simpl. unfold bind in *.
  destruct (readEntry d r nm c s) as [[[]|e] s']; [|done]. apply IH.
Qed.

(** An entry the filter rejects is passed over: the traversal of the
    directory is, effect for effect, the traversal without it. *)
Lemma forEntries_skipped d r pre name n post s :
  skipped name = true →
  forEntries d r (pre ++ (name, n) :: post) s = forEntries d r (pre ++ post) s.
Proof.
  intros H. rewrite !forEntries_app. unfold bind.
  destruct (forEntries d r pre s) as [[[]|e] s']; [|done].
  simpl. unfold bind. by rewrite readEntry_skipped.
Qed.

Lemma listing_of_skipped r pre name n post :
  skipped name = true →
  listing_of r (pre ++ (name, n) :: post) = listing_of r (pre ++ post).
Proof.
  intros H. rewrite !listing_of_app. simpl.
  assert (listing_entry r name n = []) as ->; [|done].
  destruct n; simpl; by rewrite H.
Qed.

(** A directory is listed immediately before the listing of its own
    entries, and its siblings follow that block. *)
Lemma listing_of_dir r pre name sub post :
  skipped name = false →
  listing_of r (pre ++ (name, Dir (Ok sub)) :: post) =
  listing_of r pre ++
  dir_info (child_path r name) :: listing_of (child_path r name) sub ++
  listing_of r post.
Proof.
  intros H. rewrite listing_of_app. simpl. rewrite H, listing_children. done.
Qed.

Lemma visited_block r es p sub :
  visited r es p sub →
  ∃ before after,
    listing_of r es = before ++ dir_info p :: listing_of p sub ++ after.
Proof.
  induction 1 as [r es name sub Hin Hs | r es name mid p sub Hin Hs _ IH].
  - apply list_elem_of_split in Hin as (pre & post & ->).
    rewrite listing_of_dir by done. eauto.
  - apply list_elem_of_split in Hin as (pre & post & ->).
    destruct IH as (b & a & IH).
    rewrite listing_of_dir, IH by done.
    exists (listing_of r pre ++ dir_info (child_path r name) :: b),
           (a ++ listing_of r post).
    rewrite <- !app_assoc. simpl. rewrite <- !app_assoc. done.
Qed.

(** *** The two single-file reads, case by case *)

Lemma read_handler_cases decode cwd disk tid ws filePath w :
  bound_to w tid ws →
  let fullPath := Path.join ws (strip_slash filePath) in
  read_handler cwd disk decode tid filePath w =
  if negb (inside_workspace cwd ws fullPath) then (ReadFail ACCESS_DENIED, w)
  else
    match fs_stat disk fullPath with
    | Throw e => (ReadFail (error_message e), with_log w [FsStat fullPath])
    | Ok stat =>
        if st_isDirectory stat then
          (ReadFail IS_A_DIRECTORY, with_log w [FsStat fullPath])
        else
          match fs_readFile disk fullPath with
          | Throw e =>
              (ReadFail (error_message e),
               with_log w [FsStat fullPath; FsReadFile fullPath])
          | Ok buffer =>
              (ReadOk (decode buffer) (st_size stat) (st_mtime stat),
               with_log w [FsStat fullPath; FsReadFile fullPath])
          end
    end.
Proof.
  intros Hb%bound_lookup fullPath. unfold read_handler. rewrite Hb.
  unfold try_catch, read_body. fold (strip_slash filePath). fold fullPath.
  destruct (inside_workspace cwd ws fullPath); simpl; [|done].
  unfold bind, modify, await. rewrite log_with_log.
  destruct (fs_stat disk fullPath) as [stat|e]; [|done].
  destruct (st_isDirectory stat); [done|].
  rewrite log_with_log, with_log_app. simpl.
  by destruct (fs_readFile disk fullPath).
Qed.

Lemma read_handler_unbound decode cwd disk tid filePath w :
  unbound w tid →
  read_handler cwd disk decode tid filePath w = (ReadFail NO_WORKSPACE, w).
Proof. intros Hu%unbound_lookup. unfold read_handler. by rewrite Hu. Qed.

(** A single-file read changes nothing but the effect log. *)
Lemma read_handler_frame decode cwd disk tid filePath w :
  ∃ lg, (read_handler cwd disk decode tid filePath w).2 = with_log w lg ∧
        fs_only lg.
Proof.
  destruct (truthy (workspacePath_of (metadata_of (getThread tid w))))
    as [ws|] eqn:Hb.
  - apply bound_lookup in Hb.
    rewrite (read_handler_cases decode cwd disk tid ws filePath w Hb).
    destruct (negb _).
    { no_effect. }
    destruct (fs_stat disk _) as [stat|e].
    + destruct (st_isDirectory stat).
      { eexists. split; [done | by repeat constructor]. }
      destruct (fs_readFile disk _);
        (eexists; split; [done | by repeat constructor]).
    + eexists. split; [done | by repeat constructor].
  - apply unbound_lookup in Hb. rewrite read_handler_unbound by done.
    no_effect.
Qed.

(** *** [workspace:loadFromDisk], case by case *)

Lemma loadFromDisk_cases disk tid ws w :
  bound_to w tid ws →
  match fs_readdir disk ws with
  | Throw e =>
      workspace_loadFromDisk disk tid w =
      (LoadFail (error_message e) [], with_log w [FsReaddir ws])
  | Ok es =>
      ∃ lg, fs_only lg ∧
        match first_failure es with
        | Some e =>
            workspace_loadFromDisk disk tid w =
            (LoadFail (error_message e) [], with_log w (FsReaddir ws :: lg))
        | None =>
            workspace_loadFromDisk disk tid w =
            (LoadOk (listing_of "" es) ws,
             startWatching tid ws (with_log w (FsReaddir ws :: lg)))
        end
  end.
Proof.
  intros Hb%bound_lookup. unfold workspace_loadFromDisk. rewrite Hb.
  unfold readDir, bind, fs_effect, modify, await. simpl. rewrite log_with_log.
  destruct (fs_readdir disk ws) as [es|e]; [|done].
  pose proof (forEntries_outcome ws "" es [] (with_log w [FsReaddir ws])) as H.
  unfold entries_outcome in H.
  destruct (first_failure es) as [e|].
  - destruct H as (fs' & lg & -> & Hlg). exists lg. by rewrite with_log_app.
  - destruct H as (lg & -> & Hlg). exists lg. by rewrite with_log_app.
Qed.

Lemma loadFromDisk_unbound disk tid w :
  unbound w tid →
  workspace_loadFromDisk disk tid w = (LoadFail NO_WORKSPACE [], w).
Proof. intros Hu%unbound_lookup. unfold workspace_loadFromDisk. by rewrite Hu. Qed.

Lemma loadFromDisk_store disk tid w :
  w_store (workspace_loadFromDisk disk tid w).2 = w_store w.
Proof.
  destruct (truthy (workspacePath_of (metadata_of (getThread tid w))))
    as [ws|] eqn:Hb.
  - apply bound_lookup in Hb.
    pose proof (loadFromDisk_cases disk tid ws w Hb) as H.
    destruct (fs_readdir disk ws) as [es|e]; [|by rewrite H].
    destruct H as (lg & _ & H). destruct (first_failure es); by rewrite H.
  - apply unbound_lookup in Hb. by rewrite loadFromDisk_unbound.
Qed.

(** ** The model registry *)

Lemma Forall2_map_r {A B} (R : A → B → Prop) (f : A → B) (l : list A) :
  (∀ x, R x (f x)) → Forall2 R l (map f l).
Proof. intros H. induction l; simpl; constructor; auto. Qed.

(** C6. [models:list] returns the catalog entry by entry, in order, every
    field as stored except [available], which is [hasApiKey] of the entry's
    provider whatever flag the catalog stores (it stores [true] everywhere);
    [models:listProviders] returns the providers in order, each with
    [hasApiKey] of its identifier.  Both handlers only read the catalog: they
    are functions of [hasApiKey] alone and build fresh records. *)
Theorem models_list_derives_availability (hasApiKey : string → bool) :
  Forall2
    (λ entry r,
       m_id r = m_id entry ∧ m_name r = m_name entry ∧
       m_provider r = m_provider entry ∧ m_model r = m_model entry ∧
       m_description r = m_description entry ∧
       m_available r = hasApiKey (providerId_string (m_provider entry)))
    AVAILABLE_MODELS (models_list hasApiKey) ∧
  Forall2
    (λ entry r,
       p_id r = pe_id entry ∧ p_name r = pe_name entry ∧
       p_hasApiKey r = hasApiKey (providerId_string (pe_id entry)))
    PROVIDERS (models_listProviders hasApiKey) ∧
  Forall (λ entry, m_available entry = true) AVAILABLE_MODELS.
Proof.
  split; [|split].
  - apply Forall2_map_r. intros x. simpl. tauto.
  - apply Forall2_map_r. intros x. simpl. tauto.
  - unfold AVAILABLE_MODELS. repeat constructor.
Qed.

(** Serving a request that is not [models:setDefault] leaves the
    [defaultModel] setting as it was. *)
Lemma serve_keeps_default cwd disk w r :
  sets_default r = false →
  w_store (serve cwd disk w r) !! "defaultModel" = w_store w !! "defaultModel".
Proof.
  intros Hr. destruct r as [| |tid|tid p|picked tid|tid|tid fp|tid fp];
    simpl; try done.
  - unfold workspace_set.
    destruct (truthy tid) as [t|].
    + destruct (getThread t w); [|done]. by destruct (truthy p).
    + destruct (truthy p); simpl.
      * by rewrite lookup_insert_ne.
      * by rewrite lookup_delete_ne.
  - unfold workspace_select. destruct picked as [sel|]; [|done].
    destruct (truthy tid) as [t|].
    + by destruct (getThread t w).
    + simpl. by rewrite lookup_insert_ne.
  - by rewrite loadFromDisk_store.
  - destruct (read_handler_frame Utf8.decode cwd disk tid fp w) as (lg & H & _).
    unfold workspace_readFile. by rewrite H.
  - destruct (read_handler_frame Base64.encode cwd disk tid fp w) as (lg & H & _).
    unfold workspace_readBinaryFile. by rewrite H.
Qed.

Lemma serve_all_keeps_default cwd disk rs : ∀ w,
  forallb (λ r, negb (sets_default r)) rs = true →
  w_store (serve_all cwd disk w rs) !! "defaultModel" =
  w_store w !! "defaultModel".
Proof.
  induction rs as [|r rs IH]; intros w H; [done|].
  simpl in H. apply andb_true_iff in H as [Hr Hrs].
  apply negb_true_iff in Hr.
  unfold serve_all in *. simpl. rewrite IH by done.
  by apply serve_keeps_default.
Qed.


(** C7. As long as the settings hold no [defaultModel] and no request that
    is served is [models:setDefault], [getDefaultModel] and
    [models:getDefault] return ['claude-sonnet-4-5-20250929'].  In every
    state, whatever default it holds, [models:setDefault] with [modelId]
    followed by either read returns [modelId]; so a second [setDefault]
    replaces the first. *)
Theorem default_model_fallback_and_roundtrip (cwd : string) (disk : Disk) :
  (∀ (w : World) (rs : list Request),
     w_store w !! "defaultModel" = None →
     forallb (λ r, negb (sets_default r)) rs = true →
     getDefaultModel (serve_all cwd disk w rs) = "claude-sonnet-4-5-20250929" ∧
     models_getDefault (serve_all cwd disk w rs) = "claude-sonnet-4-5-20250929") ∧
  (∀ (w : World) (modelId : string),
     getDefaultModel (models_setDefault modelId w) = modelId ∧
     models_getDefault (models_setDefault modelId w) = modelId) ∧
  (∀ (w : World) (first modelId : string),
     getDefaultModel (models_setDefault modelId (models_setDefault first w))
     = modelId).
Proof.
  split; [|split].
  - intros w rs Hunset Hrs.
    pose proof (serve_all_keeps_default cwd disk rs w Hrs) as H.
    rewrite Hunset in H.
    unfold getDefaultModel, models_getDefault, store_get. by rewrite H.
  - intros w modelId.
    unfold getDefaultModel, models_getDefault, models_setDefault, store_get.
    simpl. by rewrite lookup_insert_eq.
  - intros w first modelId.
    unfold getDefaultModel, models_setDefault, store_get.
    simpl. by rewrite lookup_insert_eq.
Qed.

Lemma default_model_fallback_and_roundtrip_witness :
  w_store world0 !! "defaultModel" = None ∧
  getDefaultModel
    (serve_all "/home/u" disk0 world0
       [WorkspaceSet None (Some "/repo"); WorkspaceLoadFromDisk "t1";
        WorkspaceReadFile "t1" "/src/a.txt"]) = "claude-sonnet-4-5-20250929" ∧
  getDefaultModel
    (models_setDefault "gpt-5.2" (models_setDefault "o3" world0)) = "gpt-5.2".
Proof.
  destruct (default_model_fallback_and_roundtrip "/home/u" disk0)
    as (H1 & _ & H3).
  split; [reflexivity|]. split.
  - exact (proj1 (H1 world0
                    [WorkspaceSet None (Some "/repo"); WorkspaceLoadFromDisk "t1";
                     WorkspaceReadFile "t1" "/src/a.txt"] eq_refl eq_refl)).
  - exact (H3 world0 "o3" "gpt-5.2").
Defined.

(** ** The binding registry *)

(** C8. The global fallback path is one slot of the settings store, apart
    from the per-session bindings: [workspace:set] for a session leaves the
    settings store, hence the slot, as it was; [workspace:set] without a
    session leaves the thread table, hence every binding, as it was, and the
    slot then reads back as the path just set (or as [null] once cleared);
    and [workspace:get] for a session gives the same answer whatever the
    settings store holds.  A session identifier is a non-empty string: the
    handlers take the empty string for a missing argument. *)
Theorem global_slot_independent_of_bindings
  (tid other : string) (newPath : option string) (w : World)
  (store : gmap string string)
  (Htid : tid ≠ "") (Hother : other ≠ "") :
  let w1 := (workspace_set (Some tid) newPath w).2 in
  let w2 := (workspace_set None newPath w).2 in
  (w_store w1 = w_store w ∧ workspace_get None w1 = workspace_get None w) ∧
  (w_threads w2 = w_threads w ∧
   workspace_get (Some other) w2 = workspace_get (Some other) w) ∧
  workspace_get None w2 = truthy newPath ∧
  workspace_get (Some tid) (with_store w store) = workspace_get (Some tid) w.
Proof.
  intros w1 w2. subst w1 w2.
  assert (Hw1 : w_store (workspace_set (Some tid) newPath w).2 = w_store w).
  { unfold workspace_set. rewrite (truthy_id tid Htid).
    destruct (getThread tid w); [|done]. by destruct (truthy newPath). }
  assert (Hw2 : w_threads (workspace_set None newPath w).2 = w_threads w).
  { unfold workspace_set. simpl. by destruct (truthy newPath). }
  repeat split.
  - done.
  - unfold workspace_get. simpl. unfold store_get. by rewrite Hw1.
  - done.
  - unfold workspace_get, getThread. rewrite (truthy_id other Hother).
    by rewrite Hw2.
  - unfold workspace_get, workspace_set. simpl.
    destruct (truthy newPath) as [p|] eqn:Hp; simpl; unfold store_get; simpl.
    + by rewrite lookup_insert_eq.
    + by rewrite lookup_delete_eq.
  - unfold workspace_get. by rewrite (truthy_id tid Htid).
Qed.

Lemma global_slot_independent_of_bindings_witness :
  "t1" ≠ "" ∧
  workspace_get None (workspace_set (Some "t1") (Some "/repo") world0).2 =
    workspace_get None world0 ∧
  workspace_get (Some "t1") (workspace_set None (Some "/other") world0).2 =
    workspace_get (Some "t1") world0.
Proof.
  pose proof (global_slot_independent_of_bindings "t1" "t1" (Some "/repo")
                world0 ∅ ltac:(discriminate) ltac:(discriminate)) as H1.
  pose proof (global_slot_independent_of_bindings "t1" "t1" (Some "/other")
                world0 ∅ ltac:(discriminate) ltac:(discriminate)) as H2.
  simpl in H1, H2.
  destruct H1 as ((_ & H1) & _). destruct H2 as (_ & (_ & H2) & _).
  split; [discriminate | split; assumption].
Defined.

(** [workspace:set] for an existing session, in one equation. *)
Lemma workspace_set_existing tid newPath th w :
  tid ≠ "" → w_threads w !! tid = Some th →
  workspace_set (Some tid) newPath w =
  (newPath,
   let md := <["workspacePath" := js_of_path newPath]> (metadata_of (Some th)) in
   match truthy newPath with
   | Some p => startWatching tid p (updateThread tid md w)
   | None => stopWatching tid (updateThread tid md w)
   end).
Proof.
  intros Htid Hth. unfold workspace_set, getThread.
  rewrite (truthy_id tid Htid), Hth. by destruct (truthy newPath).
Qed.

(** C9, as the specification states it, fails for the empty path: it is not
    null, yet [workspace:set] stores it and then stops the watch; no watch
    is started. *)
Lemma workspace_set_empty_path_stops_watch :
  let w' := (workspace_set (Some "t1") (Some "") world0).2 in
  w_log w' =
    [DbUpdateThread "t1" {[ "workspacePath" := JStr "" ]}; WatchStop "t1"] ∧
  w_watchers w' !! "t1" = None ∧
  ¬ WatchStart "t1" "" ∈ w_log w'.
Proof.
  vm_compute. split; [reflexivity | split; [reflexivity|]].
  intros H. repeat (apply elem_of_cons in H as [H|H]; [discriminate|]).
  by apply elem_of_nil in H.
Qed.

(** C9, amended.  For an existing session, [workspace:set] first stores the
    new value under [workspacePath] in the session's metadata and then turns
    to the watcher, nothing else in between or after: with a non-empty path
    it starts (or replaces) the session's watch on that path; with [null] or
    the empty string it stops the session's watch, and the session then
    reads as unbound. *)
Theorem workspace_set_persists_then_watches
  (tid : string) (newPath : option string) (th : Thread) (w : World)
  (Htid : tid ≠ "") (Hth : w_threads w !! tid = Some th) :
  let md := <["workspacePath" := js_of_path newPath]> (metadata_of (Some th)) in
  let w' := (workspace_set (Some tid) newPath w).2 in
  (workspace_set (Some tid) newPath w).1 = newPath ∧
  w_threads w' !! tid = Some (mkThread (Some md)) ∧
  (∀ p, newPath = Some p → p ≠ "" →
     w_log w' = w_log w ++ [DbUpdateThread tid md; WatchStart tid p] ∧
     w_watchers w' = <[tid := p]> (w_watchers w) ∧
     workspace_get (Some tid) w' = Some p) ∧
  (newPath = None ∨ newPath = Some "" →
     w_log w' = w_log w ++ [DbUpdateThread tid md; WatchStop tid] ∧
     w_watchers w' = delete tid (w_watchers w) ∧
     workspace_get (Some tid) w' = None).
Proof.
  intros md w'. subst w'.
  rewrite (workspace_set_existing tid newPath th w Htid Hth). fold md.
  assert (Hget : ∀ w0, w_threads w0 = w_threads (updateThread tid md w) →
            workspace_get (Some tid) w0 = truthy newPath).
  { intros w0 Hw0. unfold workspace_get, getThread.
    rewrite (truthy_id tid Htid), Hw0. simpl.
    rewrite lookup_alter_eq, Hth. simpl. unfold workspacePath_of, md.
    rewrite lookup_insert_eq. by destruct newPath. }
  split; [done|].
  split.
  { destruct (truthy newPath); simpl; by rewrite lookup_alter_eq, Hth. }
  split.
  - intros p -> Hp. rewrite (truthy_id p Hp). simpl.
    split; [by rewrite <- app_assoc|]. split; [done|].
    rewrite Hget by reflexivity. by apply truthy_id.
  - intros Hnull. apply truthy_None in Hnull as Hnone. rewrite Hnone. simpl.
    split; [by rewrite <- app_assoc|]. split; [done|].
    by rewrite Hget.
Qed.

Lemma workspace_set_persists_then_watches_witness :
  "t1" ≠ "" ∧
  w_threads world0 !! "t1" = Some (bind_thread "/workspace") ∧
  w_log (workspace_set (Some "t1") (Some "/repo") world0).2 =
    w_log world0 ++
    [DbUpdateThread "t1"
       (<["workspacePath" := JStr "/repo"]>
          (metadata_of (Some (bind_thread "/workspace"))));
     WatchStart "t1" "/repo"] ∧
  w_log (workspace_set (Some "t1") None world0).2 =
    w_log world0 ++
    [DbUpdateThread "t1"
       (<["workspacePath" := JNull]>
          (metadata_of (Some (bind_thread "/workspace"))));
     WatchStop "t1"].
Proof.
  pose proof (workspace_set_persists_then_watches "t1" (Some "/repo")
                (bind_thread "/workspace") world0
                ltac:(discriminate) ltac:(reflexivity)) as H1.
  pose proof (workspace_set_persists_then_watches "t1" None
                (bind_thread "/workspace") world0
                ltac:(discriminate) ltac:(reflexivity)) as H2.
  destruct H1 as (_ & _ & H1 & _). destruct H2 as (_ & _ & _ & H2).
  destruct (H1 "/repo" eq_refl ltac:(discriminate)) as (H1' & _).
  destruct (H2 (or_introl eq_refl)) as (H2' & _).
  split; [discriminate | split; [reflexivity | split; assumption]].
Defined.

(** C10. [workspace:set] for a session identifier the thread table does not
    know returns [null] and leaves the world as it was: settings store
    (global slot included), thread table, watchers and effect log. *)
Theorem workspace_set_unknown_session
  (tid : string) (newPath : option string) (w : World)
  (Htid : tid ≠ "") (Hth : w_threads w !! tid = None) :
  workspace_set (Some tid) newPath w = (None, w).
Proof.
  unfold workspace_set, getThread. by rewrite (truthy_id tid Htid), Hth.
Qed.

Lemma workspace_set_unknown_session_witness :
  "t2" ≠ "" ∧
  w_threads world0 !! "t2" = None ∧
  workspace_set (Some "t2") (Some "/repo") world0 = (None, world0).
Proof.
  split; [discriminate | split; [reflexivity|]].
  apply workspace_set_unknown_session; [discriminate | reflexivity].
Defined.

(** ** The sandbox check and the single-file reads *)

(** *** The check against component-wise containment

    Whatever the specification's component-wise test accepts, the string
    test of the code accepts too; the converse fails (C1). *)

#[local] Arguments String.append !_ _ / : simpl nomatch.

Lemma append_assoc_char a c b :
  (a +:+ String c EmptyString) +:+ b = a +:+ String c b.
Proof. induction a as [|d a IH]; simpl; [done | by rewrite IH]. Qed.

Lemma append_nil_r a : a +:+ "" = a.
Proof. induction a as [|d a IH]; simpl; [done | by rewrite IH]. Qed.

Lemma startsWith_append x a b :
  Js.startsWith (x +:+ a) (x +:+ b) = Js.startsWith a b.
Proof.
  induction x as [|c x IH]; simpl; [done|]. by rewrite Ascii.eqb_refl, IH.
Qed.

Lemma startsWith_self_append x a : Js.startsWith (x +:+ a) x = true.
Proof.
  rewrite <- (append_nil_r x) at 2. rewrite startsWith_append. by destruct a.
Qed.

Lemma slash_free_snoc cur c :
  slash_free cur = true → Path.isSep c = false →
  slash_free (cur +:+ String c EmptyString) = true.
Proof.
  intros Hcur Hc. induction cur as [|d cur IH]; simpl in *.
  - by rewrite Hc.
  - apply andb_true_iff in Hcur as [-> Hcur]. simpl. auto.
Qed.

Lemma segments_from_slash_free s : ∀ cur,
  slash_free cur = true →
  Forall (λ seg, slash_free seg = true) (Path.segments_from cur s).
Proof.
  induction s as [|c s IH]; intros cur Hcur; simpl.
  - by constructor.
  - destruct (Path.isSep c) eqn:Hc.
    + constructor; [done | by apply IH].
    + by apply IH, slash_free_snoc.
Qed.

Lemma segments_from_append x : ∀ cur rest,
  slash_free x = true →
  Path.segments_from cur (x +:+ rest) = Path.segments_from (cur +:+ x) rest.
Proof.
  induction x as [|c x IH]; intros cur rest Hx; simpl in *.
  - by rewrite append_nil_r.
  - apply andb_true_iff in Hx as [Hc Hx]. apply negb_true_iff in Hc.
    rewrite Hc, IH by done. by rewrite append_assoc_char.
Qed.

Lemma segments_from_sep cur s :
  Path.segments_from cur ("/" +:+ s) = cur :: Path.segments_from "" s.
Proof. reflexivity. Qed.

Lemma components_join l :
  Forall proper_segment l →
  components ("/" +:+ Path.join_segments l) = l.
Proof.
  unfold components, Path.segments. rewrite segments_from_sep.
  cbn [List.filter Js.isEmpty negb].
  induction 1 as [|x l [Hsf Hne] Hl IH]; [done|].
  destruct l as [|y l].
  - change (Path.join_segments [x]) with x.
    rewrite <- (append_nil_r x) at 1.
    rewrite segments_from_append by done.
    change (Path.segments_from ("" +:+ x) "") with [x].
    cbn [List.filter]. by rewrite Hne.
  - change (Path.join_segments (x :: y :: l))
      with (x +:+ "/" +:+ Path.join_segments (y :: l)).
    rewrite segments_from_append, segments_from_sep by done.
    change ("" +:+ x) with x.
    cbn [List.filter]. rewrite Hne. cbn [negb]. by rewrite IH.
Qed.

Lemma step_proper res seg :
  Forall proper_segment res → slash_free seg = true →
  Forall proper_segment (Path.step false res seg).
Proof.
  intros Hres Hseg. unfold Path.step.
  destruct (String.eqb seg "") eqn:He; [done|].
  destruct (String.eqb seg "."); [done|].
  destruct (String.eqb seg "..").
  - destruct res as [|top below]; [done|].
    destruct (String.eqb top ".."); [done|]. by inversion Hres.
  - constructor; [|done]. split; [done|]. by destruct seg.
Qed.

Lemma fold_step_proper segs : ∀ res,
  Forall proper_segment res →
  Forall (λ seg, slash_free seg = true) segs →
  Forall proper_segment (fold_left (Path.step false) segs res).
Proof.
  induction segs as [|seg segs IH]; intros res Hres Hsegs; simpl; [done|].
  inversion Hsegs; subst. apply IH; [by apply step_proper | done].
Qed.

(** A resolved path is [/] followed by its components joined by [/]. *)
Lemma resolve_components cwd p :
  ∃ l, Path.resolve cwd p = "/" +:+ Path.join_segments l ∧
       components (Path.resolve cwd p) = l.
Proof.
  unfold Path.resolve, Path.normalizeString.
  set (x := if Js.isEmpty p then _ else _).
  exists (rev (fold_left (Path.step false) (Path.segments x) [])).
  split; [done|]. apply components_join.
  apply Forall_rev.
  apply fold_step_proper; [constructor|]. by apply segments_from_slash_free.
Qed.

Lemma segments_prefix_startsWith l1 : ∀ l2,
  segments_prefix l1 l2 = true →
  Js.startsWith (Path.join_segments l2) (Path.join_segments l1) = true.
Proof.
  induction l1 as [|x l1 IH]; intros l2 H; [by destruct (Path.join_segments l2)|].
  destruct l2 as [|y l2]; [discriminate|].
  simpl in H. apply andb_true_iff in H as [Hxy H]. apply String.eqb_eq in Hxy.
  subst y. destruct l1 as [|x1 l1].
  - destruct l2 as [|y2 l2]; simpl.
    + rewrite <- (append_nil_r x) at 1. apply startsWith_self_append.
    + apply startsWith_self_append.
  - destruct l2 as [|y2 l2]; [discriminate|].
    change (Path.join_segments (x :: x1 :: l1))
      with (x +:+ "/" +:+ Path.join_segments (x1 :: l1)).
    change (Path.join_segments (x :: y2 :: l2))
      with (x +:+ "/" +:+ Path.join_segments (y2 :: l2)).
    rewrite startsWith_append.
    change (Js.startsWith ("/" +:+ Path.join_segments (y2 :: l2))
              ("/" +:+ Path.join_segments (x1 :: l1)) = true).
    rewrite startsWith_append. by apply IH.
Qed.

Lemma component_prefix_passes_check cwd workspacePath fullPath :
  component_prefix (Path.resolve cwd workspacePath) (Path.resolve cwd fullPath)
    = true →
  inside_workspace cwd workspacePath fullPath = true.
Proof.
  unfold component_prefix, inside_workspace.
  destruct (resolve_components cwd workspacePath) as (l1 & -> & ->).
  destruct (resolve_components cwd fullPath) as (l2 & -> & ->).
  intros H. simpl. by apply segments_prefix_startsWith.
Qed.

(** C1.  The check is a comparison of strings, not of path segments.  With
    the session bound to [/workspace], the virtual path
    [/../workspaceX/secret.txt] joins and normalizes to
    [/workspaceX/secret.txt], a sibling of the root: segment by segment the
    root is not a prefix of it, yet ["/workspaceX/secret.txt".startsWith(
    "/workspace")] holds, the check lets it pass, and both reads go to the
    disk and return the file outside the workspace.  A path that leaves the
    root for a directory whose name does not extend the root's, like
    [/../../etc/passwd], is denied before the disk is touched. *)
Theorem read_check_admits_sibling_of_root (cwd : string) :
  let filePath := "/../workspaceX/secret.txt" in
  let fullPath := Path.join "/workspace" (strip_slash filePath) in
  fullPath = "/workspaceX/secret.txt" ∧
  component_prefix (Path.resolve cwd "/workspace") (Path.resolve cwd fullPath)
    = false ∧
  inside_workspace cwd "/workspace" fullPath = true ∧
  workspace_readFile cwd disk0 "t1" filePath world0 =
    (ReadOk "secret" 6 "2026-01-15T10:00:00.000Z",
     with_log world0 [FsStat "/workspaceX/secret.txt";
                      FsReadFile "/workspaceX/secret.txt"]) ∧
  workspace_readBinaryFile cwd disk0 "t1" filePath world0 =
    (ReadOk "c2VjcmV0" 6 "2026-01-15T10:00:00.000Z",
     with_log world0 [FsStat "/workspaceX/secret.txt";
                      FsReadFile "/workspaceX/secret.txt"]) ∧
  workspace_readFile cwd disk0 "t1" "/../../etc/passwd" world0 =
    (ReadFail "Access denied: path outside workspace", world0) ∧
  workspace_readBinaryFile cwd disk0 "t1" "/../../etc/passwd" world0 =
    (ReadFail "Access denied: path outside workspace", world0).
Proof. intros filePath fullPath. repeat split. Qed.

(** C4. For a session with no workspace bound (no such thread, no metadata,
    no [workspacePath] in it, or [null] or the empty string there), the two
    single-file reads and [workspace:loadFromDisk] fail with
    ['No workspace folder linked'] and leave the world as it was: nothing is
    read from the disk, no effect is logged. *)
Theorem unbound_session_no_workspace_linked
  (cwd : string) (disk : Disk) (tid filePath : string) (w : World)
  (Hu : unbound w tid) :
  workspace_readFile cwd disk tid filePath w =
    (ReadFail "No workspace folder linked", w) ∧
  workspace_readBinaryFile cwd disk tid filePath w =
    (ReadFail "No workspace folder linked", w) ∧
  workspace_loadFromDisk disk tid w =
    (LoadFail "No workspace folder linked" [], w).
Proof.
  split; [|split].
  - by apply read_handler_unbound.
  - by apply read_handler_unbound.
  - by apply loadFromDisk_unbound.
Qed.

Lemma unbound_session_no_workspace_linked_witness :
  unbound world0 "t2" ∧
  workspace_readFile "/home/u" disk0 "t2" "/src/a.txt" world0 =
    (ReadFail "No workspace folder linked", world0) ∧
  workspace_readBinaryFile "/home/u" disk0 "t2" "/src/a.txt" world0 =
    (ReadFail "No workspace folder linked", world0) ∧
  workspace_loadFromDisk disk0 "t2" world0 =
    (LoadFail "No workspace folder linked" [], world0).
Proof.
  assert (H : unbound world0 "t2") by (apply unbound_lookup; reflexivity).
  split; [exact H|].
  exact (unbound_session_no_workspace_linked "/home/u" disk0 "t2" "/src/a.txt"
           world0 H).
Defined.


(** ** The snapshot *)

(** C2, as the specification states it, fails: with the workspace root
    readable and an unreadable directory [a] next to the file [b.txt], the
    call does not skip [a] and report success with the rest of the listing;
    it returns the failure of [a], with no files. *)
Lemma loadFromDisk_unreadable_subdirectory_fails :
  fs_readdir disk1 "/workspace" = Ok tree1 ∧
  listing_of "" tree1 =
    [dir_info "a"; file_info "b.txt" (stat_file 7)] ∧
  (workspace_loadFromDisk disk1 "t1" world0).1 =
    LoadFail "EACCES: permission denied" [] ∧
  ¬ (∃ files p, (workspace_loadFromDisk disk1 "t1" world0).1 = LoadOk files p).
Proof.
  split; [reflexivity|]. split; [reflexivity|]. split; [reflexivity|].
  intros (files & p & H). vm_compute in H. discriminate.
Qed.


Lemma attempt_children d es :
  (fix children (es : list (string * node)) : list Effect :=
     match es with
     | [] => []
     | (nm, child) :: rest =>
         attempt_entry d nm child ++
         match failure_entry nm child with
         | Some _ => []
         | None => children rest
         end
     end) es = attempt_of d es.
Proof. induction es as [|[nm c] rest IH]; [done|]. simpl. by rewrite IH. Qed.

Lemma attempt_entry_dir d name es :
  skipped name = false →
  attempt_entry d name (Dir (Ok es)) =
  FsReaddir (Path.join d name) :: attempt_of (Path.join d name) es.
Proof. intros H. simpl. rewrite H. by rewrite attempt_children. Qed.

(** A traversal performs the accesses of [attempt_of], in that order and no
    other, and ends as its first failure says. *)
Lemma forEntries_attempt_from es :
  Forall (λ p, ∀ d r name fs w,
            ∃ fs', readEntry d r name p.2 (fs, w) =
                   (outcome_of (failure_entry name p.2),
                    (fs', with_log w (attempt_entry d name p.2)))) es →
  ∀ d r fs w,
    ∃ fs', forEntries d r es (fs, w) =
           (outcome_of (first_failure es), (fs', with_log w (attempt_of d es))).
Proof.
  induction 1 as [|[nm c] rest Hc _ IH]; intros d r fs w; simpl.
  - exists fs. by rewrite with_log_nil.
  - destruct (Hc d r nm fs w) as (fs1 & H1). simpl in H1.
    unfold bind. rewrite H1.
    destruct (failure_entry nm c) as [e|]; simpl.
    + exists fs1. by rewrite app_nil_r.
    + destruct (IH d r fs1 (with_log w (attempt_entry d nm c))) as (fs2 & H2).
      exists fs2. by rewrite H2, with_log_app.
Qed.

Lemma readEntry_attempt n :
  ∀ d r name fs w,
    ∃ fs', readEntry d r name n (fs, w) =
           (outcome_of (failure_entry name n),
            (fs', with_log w (attempt_entry d name n))).
Proof.
  induction n as [st|e|es IH] using node_ind; intros d r name fs w;
    destruct (skipped name) eqn:Hs.
  - simpl. rewrite Hs. exists fs. by rewrite with_log_nil.
  - simpl. rewrite Hs. destruct st; eexists; reflexivity.
  - simpl. rewrite Hs. exists fs. by rewrite with_log_nil.
  - simpl. rewrite Hs. eexists; reflexivity.
  - rewrite readEntry_skipped by done. simpl. rewrite Hs.
    exists fs. by rewrite with_log_nil.
  - rewrite readEntry_dir, failure_entry_dir, attempt_entry_dir by done.
    unfold readDir, bind, push, fs_effect, modify, await. simpl.
    destruct (forEntries_attempt_from es IH (Path.join d name)
                (child_path r name) (fs ++ [dir_info (child_path r name)])
                (log (FsReaddir (Path.join d name)) w)) as (fs' & H).
    exists fs'. rewrite H, log_with_log, with_log_app. done.
Qed.

Lemma forEntries_attempt d r es fs w :
  ∃ fs', forEntries d r es (fs, w) =
         (outcome_of (first_failure es), (fs', with_log w (attempt_of d es))).
Proof.
  apply forEntries_attempt_from, Forall_forall. intros p _.
  apply readEntry_attempt.
Qed.

(** Nothing after a failing entry is visited. *)
Lemma forEntries_cut d r pre name n post e s :
  failure_entry name n = Some e →
  forEntries d r (pre ++ (name, n) :: post) s =
  forEntries d r (pre ++ [(name, n)]) s.
Proof.
  intros Hf. rewrite !forEntries_app. unfold bind.
  destruct (forEntries d r pre s) as [[[]|e'] [fs w]]; [|done].
  simpl. unfold bind.
  destruct (readEntry_attempt n d r name fs w) as (fs' & H).
  rewrite H, Hf. done.
Qed.

Lemma attempt_of_cut d pre name n post e :
  first_failure pre = None → failure_entry name n = Some e →
  attempt_of d (pre ++ (name, n) :: post) =
  attempt_of d pre ++ attempt_entry d name n.
Proof.
  intros Hpre Hf. induction pre as [|[nm c] pre IH]; simpl in *.
  - by rewrite Hf, app_nil_r.
  - destruct (failure_entry nm c); [discriminate|].
    by rewrite IH, app_assoc.
Qed.

(** C2, amended.  For a bound session the outcome of
    [workspace:loadFromDisk] is decided by the first read that fails, at the
    top level or below it.  If [fs.readdir] fails on the workspace root, or
    [fs.readdir] or [fs.stat] fails on any entry the traversal visits, the
    traversal stops there: the call returns a failure carrying that cause,
    with an empty file list, and the world has gained the disk accesses up to
    the failing one and nothing else, so no later entry is read and no watch
    is started.  If no read fails, the call returns success with the whole
    listing and, after the accesses, starts the watch.  With a failing
    entry, the traversal of a directory is, effect for effect, that of the
    directory cut after that entry. *)
Theorem loadFromDisk_first_failure_aborts
  (disk : Disk) (tid ws : string) (w : World) (Hb : bound_to w tid ws) :
  let r := workspace_loadFromDisk disk tid w in
  match fs_readdir disk ws with
  | Throw e =>
      r = (LoadFail (error_message e) [], with_log w [FsReaddir ws])
  | Ok es =>
      match first_failure es with
      | Some e =>
          r = (LoadFail (error_message e) [],
               with_log w (FsReaddir ws :: attempt_of ws es))
      | None =>
          r = (LoadOk (listing_of "" es) ws,
               startWatching tid ws
                 (with_log w (FsReaddir ws :: attempt_of ws es)))
      end
  end ∧
  (∀ d rel pre name n post e s,
     first_failure pre = None → failure_entry name n = Some e →
     forEntries d rel (pre ++ (name, n) :: post) s =
       forEntries d rel (pre ++ [(name, n)]) s ∧
     (forEntries d rel (pre ++ (name, n) :: post) s).1 = Throw e ∧
     attempt_of d (pre ++ (name, n) :: post) =
       attempt_of d pre ++ attempt_entry d name n).
Proof.
  intros r. subst r. split.
  - apply bound_lookup in Hb. unfold workspace_loadFromDisk. rewrite Hb.
    unfold readDir, bind, fs_effect, modify, await. simpl.
    rewrite log_with_log.
    destruct (fs_readdir disk ws) as [es|e]; [|done].
    destruct (forEntries_attempt ws "" es [] (with_log w [FsReaddir ws]))
      as (fs' & H).
    pose proof (forEntries_outcome ws "" es [] (with_log w [FsReaddir ws]))
      as Hout.
    unfold entries_outcome in Hout. rewrite H, with_log_app in *.
    destruct (first_failure es) as [e|]; simpl in *; [done|].
    destruct Hout as (lg & Hout & _). by injection Hout as -> _.
  - intros d rel pre name n post e s Hpre Hf.
    split; [by eapply forEntries_cut|]. split; [|by eapply attempt_of_cut].
    rewrite (forEntries_cut d rel pre name n post e s Hf).
    destruct s as [fs w0].
    destruct (forEntries_attempt d rel (pre ++ [(name, n)]) fs w0) as (fs' & H).
    rewrite H. simpl.
    assert (first_failure (pre ++ [(name, n)]) = Some e) as ->; [|done].
    clear -Hpre Hf. induction pre as [|[nm c] pre IH]; simpl in *.
    + by rewrite Hf.
    + destruct (failure_entry nm c); [discriminate | by apply IH].
Qed.

Lemma loadFromDisk_first_failure_aborts_witness :
  bound_to world0 "t1" "/workspace" ∧
  workspace_loadFromDisk disk1 "t1" world0 =
    (LoadFail "EACCES: permission denied" [],
     with_log world0 [FsReaddir "/workspace"; FsReaddir "/workspace/a"]).
Proof.
  assert (H : bound_to world0 "t1" "/workspace")
    by (apply bound_lookup; reflexivity).
  split; [exact H|].
  exact (proj1 (loadFromDisk_first_failure_aborts disk1 "t1" "/workspace"
                  world0 H)).
Defined.

(** C3. When [workspace:loadFromDisk] succeeds, its file list is the
    listing the specification describes for the entries of the workspace
    root: depth-first, with every directory the traversal descends into
    listed immediately before the block of all entries below it.  An entry
    whose name begins with [.] or is [node_modules] is passed over wherever
    it occurs: the listing, and the traversal itself with every effect it
    has, are those of the directory without that entry, so nothing below it
    is read or listed. *)
Theorem loadFromDisk_lists_depth_first
  (disk : Disk) (tid ws : string) (w w' : World) (files : list FileInfo)
  (Hok : workspace_loadFromDisk disk tid w = (LoadOk files ws, w')) :
  ∃ es,
    fs_readdir disk ws = Ok es ∧
    files = listing_of "" es ∧
    (∀ p sub, visited "" es p sub →
       ∃ before after,
         files = before ++ dir_info p :: listing_of p sub ++ after) ∧
    (∀ d r pre name n post s,
       (∃ rest, name = String "." rest) ∨ name = "node_modules" →
       forEntries d r (pre ++ (name, n) :: post) s =
         forEntries d r (pre ++ post) s ∧
       listing_of r (pre ++ (name, n) :: post) = listing_of r (pre ++ post)).
Proof.
  destruct (truthy (workspacePath_of (metadata_of (getThread tid w))))
    as [ws'|] eqn:Hb.
  - apply bound_lookup in Hb.
    pose proof (loadFromDisk_cases disk tid ws' w Hb) as H.
    destruct (fs_readdir disk ws') as [es|e] eqn:Hrd.
    + destruct H as (lg & _ & H).
      destruct (first_failure es) as [e|]; rewrite H in Hok; [discriminate|].
      injection Hok as <- <- _. exists es.
      split; [done|]. split; [done|]. split.
      * intros p sub Hv. by apply visited_block.
      * intros d r pre name n post s Hname%skipped_spec.
        split; [by apply forEntries_skipped | by apply listing_of_skipped].
    + rewrite H in Hok. discriminate.
  - apply unbound_lookup in Hb. rewrite loadFromDisk_unbound in Hok by done.
    discriminate.
Qed.

Lemma loadFromDisk_lists_depth_first_witness :
  workspace_loadFromDisk disk0 "t1" world0 =
    (LoadOk [mkFileInfo "/src" true None None;
             mkFileInfo "/src/a.txt" false (Some 5%Z)
               (Some "2026-01-15T10:00:00.000Z")] "/workspace",
     (workspace_loadFromDisk disk0 "t1" world0).2) ∧
  ∃ es, fs_readdir disk0 "/workspace" = Ok es ∧
        [mkFileInfo "/src" true None None;
         mkFileInfo "/src/a.txt" false (Some 5%Z)
           (Some "2026-01-15T10:00:00.000Z")] = listing_of "" es.
Proof.
  split; [reflexivity|].
  destruct (loadFromDisk_lists_depth_first disk0 "t1" "/workspace" world0
              (workspace_loadFromDisk disk0 "t1" world0).2
              [mkFileInfo "/src" true None None;
               mkFileInfo "/src/a.txt" false (Some 5%Z)
                 (Some "2026-01-15T10:00:00.000Z")] eq_refl)
    as (es & Hrd & Hfiles & _).
  exists es. split; assumption.
Defined.

(** * Further properties of the handlers *)

(** ** [workspace:select] *)

(** X1. Once the folder dialog has returned a non-empty path,
    [workspace:select] does exactly what [workspace:set] does with that
    path, result and state, both for an existing session and when no session
    is given. *)
Theorem workspace_select_acts_as_set
  (selectedPath : string) (threadId : option string) (w : World)
  (Hp : selectedPath ≠ "")
  (Hknown : truthy threadId = None ∨
            ∃ tid, truthy threadId = Some tid ∧ is_Some (w_threads w !! tid)) :
  workspace_select (Some selectedPath) threadId w =
  workspace_set threadId (Some selectedPath) w.
Proof.
  unfold workspace_select, workspace_set.
  assert (Ht : truthy (Some selectedPath) = Some selectedPath)
    by by apply truthy_id.
  destruct Hknown as [-> | (tid & -> & [th Hth])].
  - by rewrite Ht.
  - unfold getThread. by rewrite Hth, Ht.
Qed.

Lemma workspace_select_acts_as_set_witness :
  "/repo" ≠ "" ∧
  workspace_select (Some "/repo") (Some "t1") world0 =
  workspace_set (Some "t1") (Some "/repo") world0.
Proof.
  split; [discriminate|].
  apply workspace_select_acts_as_set; [discriminate|].
  right. exists "t1". split; [reflexivity|]. by eexists.
Defined.

(** X2. A cancelled dialog makes [workspace:select] return [null] and change
    nothing.  For a session the thread table does not know, the selected
    path is returned although nothing is stored: the state is unchanged and
    [workspace:get] for that session still answers [null]. *)
Theorem workspace_select_unknown_session_binds_nothing
  (selectedPath tid : string) (threadId : option string) (w : World)
  (Htid : tid ≠ "") (Hth : w_threads w !! tid = None) :
  workspace_select None threadId w = (None, w) ∧
  workspace_select (Some selectedPath) (Some tid) w = (Some selectedPath, w) ∧
  workspace_get (Some tid)
    (workspace_select (Some selectedPath) (Some tid) w).2 = None.
Proof.
  split; [done|]. unfold workspace_select, workspace_get, getThread.
  rewrite (truthy_id tid Htid), Hth. simpl. by rewrite Hth.
Qed.

Lemma workspace_select_unknown_session_binds_nothing_witness :
  "t2" ≠ "" ∧ w_threads world0 !! "t2" = None ∧
  workspace_select (Some "/repo") (Some "t2") world0 = (Some "/repo", world0).
Proof.
  split; [discriminate|]. split; [reflexivity|].
  apply (workspace_select_unknown_session_binds_nothing "/repo" "t2" None world0);
    [discriminate | reflexivity].
Defined.

(** ** [workspace:set] and the other sessions *)

(** X3. [workspace:set] for a session touches that session only, and in its
    metadata the key [workspacePath] only: every other session keeps its row
    and its watch, and every other key of the session's metadata keeps its
    value. *)
Theorem workspace_set_touches_one_binding
  (tid other key : string) (newPath : option string) (w : World)
  (Htid : tid ≠ "") (Hother : other ≠ tid) (Hkey : key ≠ "workspacePath") :
  let w' := (workspace_set (Some tid) newPath w).2 in
  w_threads w' !! other = w_threads w !! other ∧
  w_watchers w' !! other = w_watchers w !! other ∧
  metadata_of (w_threads w' !! tid) !! key =
    metadata_of (w_threads w !! tid) !! key.
Proof.
  intros w'. subst w'.
  destruct (w_threads w !! tid) as [th|] eqn:Hth.
  - rewrite (workspace_set_existing tid newPath th w Htid Hth).
    destruct (truthy newPath) as [p|]; simpl.
    + rewrite lookup_alter_ne, lookup_insert_ne, lookup_alter_eq, Hth by done.
      simpl. by rewrite lookup_insert_ne.
    + rewrite lookup_alter_ne, lookup_delete_ne, lookup_alter_eq, Hth by done.
      simpl. by rewrite lookup_insert_ne.
  - unfold workspace_set, getThread.
    rewrite (truthy_id tid Htid), Hth. simpl. by rewrite Hth.
Qed.

Lemma workspace_set_touches_one_binding_witness :
  "t1" ≠ "" ∧ "t2" ≠ "t1" ∧ "title" ≠ "workspacePath" ∧
  w_threads (workspace_set (Some "t1") (Some "/repo") world0).2 !! "t2" =
    w_threads world0 !! "t2".
Proof.
  split; [discriminate|]. split; [discriminate|]. split; [discriminate|].
  apply (workspace_set_touches_one_binding "t1" "t2" "title" (Some "/repo")
           world0); discriminate.
Defined.

(** X4. What [workspace:set] stores is what the readers see: after a
    non-empty path has been set for an existing session the session is bound
    to that path; after [null] or the empty string it is unbound, and the
    two single-file reads and [workspace:loadFromDisk] fail with
    ['No workspace folder linked'] without any further effect. *)
Theorem workspace_set_decides_readers
  (cwd : string) (disk : Disk) (tid filePath : string)
  (newPath : option string) (th : Thread) (w : World)
  (Htid : tid ≠ "") (Hth : w_threads w !! tid = Some th) :
  let w' := (workspace_set (Some tid) newPath w).2 in
  (∀ p, newPath = Some p → p ≠ "" → bound_to w' tid p) ∧
  (newPath = None ∨ newPath = Some "" →
     unbound w' tid ∧
     workspace_readFile cwd disk tid filePath w' =
       (ReadFail "No workspace folder linked", w') ∧
     workspace_readBinaryFile cwd disk tid filePath w' =
       (ReadFail "No workspace folder linked", w') ∧
     workspace_loadFromDisk disk tid w' =
       (LoadFail "No workspace folder linked" [], w')).
Proof.
  intros w'.
  assert (Hlook : truthy (workspacePath_of (metadata_of (getThread tid w')))
                  = truthy newPath).
  { subst w'. rewrite (workspace_set_existing tid newPath th w Htid Hth).
    unfold getThread.
    destruct (truthy newPath) as [p|] eqn:Hp; simpl;
      rewrite lookup_alter_eq, Hth; simpl;
      unfold workspacePath_of; rewrite lookup_insert_eq;
      destruct newPath; simpl in *; congruence. }
  split.
  - intros p -> Hp. apply bound_lookup. rewrite Hlook. by apply truthy_id.
  - intros Hnull%truthy_None.
    assert (Hu : unbound w' tid) by (apply unbound_lookup; congruence).
    split; [done|]. split; [by apply read_handler_unbound|].
    split; [by apply read_handler_unbound | by apply loadFromDisk_unbound].
Qed.

Lemma workspace_set_decides_readers_witness :
  "t1" ≠ "" ∧
  w_threads world0 !! "t1" = Some (bind_thread "/workspace") ∧
  bound_to (workspace_set (Some "t1") (Some "/repo") world0).2 "t1" "/repo" ∧
  unbound (workspace_set (Some "t1") None world0).2 "t1".
Proof.
  split; [discriminate|]. split; [reflexivity|]. split.
  - apply (workspace_set_decides_readers "/" disk0 "t1" "/a"
             (Some "/repo") (bind_thread "/workspace") world0
             ltac:(discriminate) eq_refl); [reflexivity | discriminate].
  - apply (workspace_set_decides_readers "/" disk0 "t1" "/a"
             None (bind_thread "/workspace") world0
             ltac:(discriminate) eq_refl). by left.
Defined.

(** ** More on the snapshot *)

Lemma listing_entry_well_formed n :
  ∀ r name, Forall well_formed_info (listing_entry r name n).
Proof.
  induction n as [st|e|es IH] using node_ind; intros r name;
    destruct (skipped name) eqn:Hs.
  - simpl. rewrite Hs. constructor.
  - simpl. rewrite Hs. destruct st; repeat constructor; simpl; eauto.
  - simpl. rewrite Hs. constructor.
  - simpl. rewrite Hs. repeat constructor.
  - simpl. rewrite Hs. constructor.
  - rewrite listing_entry_dir by done. constructor; [by repeat constructor|].
    generalize (child_path r name). intros r'.
    induction IH as [|[nm c] rest Hc _ IHrest]; simpl; [constructor|].
    apply Forall_app. split; [apply Hc | apply IHrest].
Qed.

Lemma listing_of_well_formed r es : Forall well_formed_info (listing_of r es).
Proof.
  induction es as [|[nm c] rest IH]; simpl; [constructor|].
  apply Forall_app. split; [apply listing_entry_well_formed | apply IH].
Qed.

(** What a successful [workspace:loadFromDisk] tells about the call. *)
Lemma loadFromDisk_success disk tid ws w w' files :
  workspace_loadFromDisk disk tid w = (LoadOk files ws, w') →
  ∃ es lg,
    bound_to w tid ws ∧ fs_readdir disk ws = Ok es ∧ first_failure es = None ∧
    files = listing_of "" es ∧
    w' = startWatching tid ws (with_log w (FsReaddir ws :: lg)) ∧
    fs_only lg.
Proof.
  intros Hok.
  destruct (truthy (workspacePath_of (metadata_of (getThread tid w))))
    as [ws'|] eqn:Hb.
  - apply bound_lookup in Hb.
    pose proof (loadFromDisk_cases disk tid ws' w Hb) as H.
    destruct (fs_readdir disk ws') as [es|e] eqn:Hrd.
    + destruct H as (lg & Hlg & H).
      destruct (first_failure es) as [e|] eqn:Hff; rewrite H in Hok;
        [discriminate|].
      injection Hok as <- <- <-. by exists es, lg.
    + rewrite H in Hok. discriminate.
  - apply unbound_lookup in Hb. rewrite loadFromDisk_unbound in Hok by done.
    discriminate.
Qed.

(** X5. Every entry of a successful [workspace:loadFromDisk] is well formed:
    its path begins with [/]; a directory entry has neither [size] nor
    [modified_at], every other entry has both. *)
Theorem loadFromDisk_entries_well_formed
  (disk : Disk) (tid ws : string) (w w' : World) (files : list FileInfo)
  (Hok : workspace_loadFromDisk disk tid w = (LoadOk files ws, w')) :
  Forall well_formed_info files.
Proof.
  destruct (loadFromDisk_success disk tid ws w w' files Hok)
    as (es & lg & _ & _ & _ & -> & _).
  apply listing_of_well_formed.
Qed.

Lemma loadFromDisk_entries_well_formed_witness :
  Forall well_formed_info
    [mkFileInfo "/src" true None None;
     mkFileInfo "/src/a.txt" false (Some 5%Z) (Some "2026-01-15T10:00:00.000Z")].
Proof.
  apply (loadFromDisk_entries_well_formed disk0 "t1" "/workspace" world0
           (workspace_loadFromDisk disk0 "t1" world0).2).
  reflexivity.
Defined.

(** X6. [workspace:loadFromDisk] never writes settings or bindings: the
    settings store and the thread table are as before, the watches of the
    other sessions are as before, and if the session has a watch afterwards
    it is the one it had or one on the root it is bound to. *)
Theorem loadFromDisk_keeps_settings_and_bindings
  (disk : Disk) (tid other : string) (w : World) (Hother : other ≠ tid) :
  let w' := (workspace_loadFromDisk disk tid w).2 in
  w_store w' = w_store w ∧
  w_threads w' = w_threads w ∧
  w_watchers w' !! other = w_watchers w !! other ∧
  (∀ p, w_watchers w' !! tid = Some p →
        w_watchers w !! tid = Some p ∨ bound_to w tid p).
Proof.
  intros w'. subst w'.
  destruct (truthy (workspacePath_of (metadata_of (getThread tid w))))
    as [ws|] eqn:Hb.
  - apply bound_lookup in Hb.
    pose proof (loadFromDisk_cases disk tid ws w Hb) as H.
    destruct (fs_readdir disk ws) as [es|e].
    + destruct H as (lg & _ & H).
      destruct (first_failure es); rewrite H; simpl; repeat split; auto.
      * by rewrite lookup_insert_ne.
      * rewrite lookup_insert_eq. intros p [= <-]. by right.
    + rewrite H. simpl. repeat split; auto.
  - apply unbound_lookup in Hb. rewrite loadFromDisk_unbound by done.
    simpl. repeat split; auto.
Qed.

Lemma loadFromDisk_keeps_settings_and_bindings_witness :
  "t2" ≠ "t1" ∧
  w_threads (workspace_loadFromDisk disk0 "t1" world0).2 = w_threads world0.
Proof.
  split; [discriminate|].
  apply (loadFromDisk_keeps_settings_and_bindings disk0 "t1" "t2" world0).
  discriminate.
Defined.

Lemma trace_children d es :
  (fix children (es : list (string * node)) : list Effect :=
     match es with
     | [] => []
     | (nm, child) :: rest => trace_entry d nm child ++ children rest
     end) es = trace_of d es.
Proof. induction es as [|[nm c] rest IH]; [done|]. simpl. by rewrite IH. Qed.

Lemma trace_entry_dir d name es :
  skipped name = false →
  trace_entry d name (Dir (Ok es)) =
  FsReaddir (Path.join d name) :: trace_of (Path.join d name) es.
Proof. intros H. simpl. rewrite H. by rewrite trace_children. Qed.

(** A traversal in which no read fails performs the accesses of
    [trace_of], in that order. *)
Lemma forEntries_trace_from es :
  Forall (λ p, ∀ d r name fs w,
            failure_entry name p.2 = None →
            readEntry d r name p.2 (fs, w) =
            (Ok tt, (fs ++ listing_entry r name p.2,
                     with_log w (trace_entry d name p.2)))) es →
  ∀ d r fs w,
    first_failure es = None →
    forEntries d r es (fs, w) =
    (Ok tt, (fs ++ listing_of r es, with_log w (trace_of d es))).
Proof.
  induction 1 as [|[nm c] rest Hc _ IH]; intros d r fs w Hff; simpl.
  - by rewrite with_log_nil, app_nil_r.
  - simpl in Hff, Hc. destruct (failure_entry nm c) eqn:Hf; [discriminate|].
    unfold bind. rewrite Hc by done. rewrite IH by done.
    by rewrite with_log_app, app_assoc.
Qed.

Lemma readEntry_trace n :
  ∀ d r name fs w,
    failure_entry name n = None →
    readEntry d r name n (fs, w) =
    (Ok tt, (fs ++ listing_entry r name n, with_log w (trace_entry d name n))).
Proof.
  induction n as [st|e|es IH] using node_ind; intros d r name fs w Hf;
    destruct (skipped name) eqn:Hs.
  - simpl. rewrite Hs. by rewrite with_log_nil, app_nil_r.
  - simpl in *. rewrite Hs in *. by destruct st.
  - simpl. rewrite Hs. by rewrite with_log_nil, app_nil_r.
  - simpl in Hf. rewrite Hs in Hf. discriminate.
  - rewrite readEntry_skipped by done. simpl. rewrite Hs.
    by rewrite with_log_nil, app_nil_r.
  - rewrite failure_entry_dir in Hf by done.
    rewrite readEntry_dir, listing_entry_dir, trace_entry_dir by done.
    unfold readDir, bind, push, fs_effect, modify, await. simpl.
    rewrite (forEntries_trace_from es IH) by done.
    rewrite log_with_log, with_log_app, <- app_assoc. done.
Qed.

Lemma forEntries_trace d r es fs w :
  first_failure es = None →
  forEntries d r es (fs, w) =
  (Ok tt, (fs ++ listing_of r es, with_log w (trace_of d es))).
Proof.
  apply forEntries_trace_from, Forall_forall. intros p _.
  apply readEntry_trace.
Qed.

Lemma count_app {A} (f : A → bool) l1 l2 :
  count f (l1 ++ l2) = count f l1 + count f l2.
Proof. unfold count. by rewrite List.filter_app, length_app. Qed.

Lemma accesses_match_app lg1 fs1 lg2 fs2 :
  accesses_match lg1 fs1 → accesses_match lg2 fs2 →
  accesses_match (lg1 ++ lg2) (fs1 ++ fs2).
Proof.
  intros (A1 & B1 & C1) (A2 & B2 & C2). unfold accesses_match.
  rewrite !count_app. lia.
Qed.

Lemma trace_entry_accesses n :
  ∀ d r name, failure_entry name n = None →
    accesses_match (trace_entry d name n) (listing_entry r name n).
Proof.
  induction n as [st|e|es IH] using node_ind; intros d r name Hf;
    destruct (skipped name) eqn:Hs.
  - simpl. by rewrite Hs.
  - simpl in *. rewrite Hs in *. by destruct st.
  - simpl. by rewrite Hs.
  - simpl in Hf. rewrite Hs in Hf. discriminate.
  - simpl. by rewrite Hs.
  - rewrite failure_entry_dir in Hf by done.
    rewrite listing_entry_dir, trace_entry_dir by done.
    apply (accesses_match_app [_] [_]); [done|].
    revert Hf. generalize (Path.join d name) (child_path r name). intros d' r'.
    induction IH as [|[nm c] rest Hc _ IHrest]; simpl; intros Hf; [done|].
    destruct (failure_entry nm c) eqn:Hfc; [discriminate|].
    apply accesses_match_app; [by apply Hc | by apply IHrest].
Qed.

Lemma trace_of_accesses d r es :
  first_failure es = None → accesses_match (trace_of d es) (listing_of r es).
Proof.
  induction es as [|[nm c] rest IH]; simpl; intros Hf; [done|].
  destruct (failure_entry nm c) eqn:Hfc; [discriminate|].
  apply accesses_match_app; [by apply trace_entry_accesses | by apply IH].
Qed.

(** X7. A successful [workspace:loadFromDisk] costs one [fs.readdir] for
    the root and one per directory it lists, one [fs.stat] per other entry
    it lists, and never reads the content of a file; starting the watch is
    the last thing it does. *)
Theorem loadFromDisk_access_count
  (disk : Disk) (tid ws : string) (w w' : World) (files : list FileInfo)
  (Hok : workspace_loadFromDisk disk tid w = (LoadOk files ws, w')) :
  ∃ lg,
    w_log w' = w_log w ++ lg ++ [WatchStart tid ws] ∧
    count is_readdir lg = 1 + count fi_is_dir files ∧
    count is_stat lg = count (λ f, negb (fi_is_dir f)) files ∧
    count is_readFile lg = 0.
Proof.
  destruct (loadFromDisk_success disk tid ws w w' files Hok)
    as (es & lg0 & Hb & Hrd & Hff & -> & _ & _).
  apply bound_lookup in Hb.
  unfold workspace_loadFromDisk in Hok. rewrite Hb, Hrd in Hok.
  unfold readDir, bind, fs_effect, modify, await in Hok. simpl in Hok.
  rewrite forEntries_trace in Hok by done.
  injection Hok as <-.
  exists (FsReaddir ws :: trace_of ws es).
  destruct (trace_of_accesses ws "" es Hff) as (A & B & C).
  split; [simpl; by rewrite <- !app_assoc|].
  change (FsReaddir ws :: trace_of ws es) with ([FsReaddir ws] ++ trace_of ws es).
  rewrite !count_app. rewrite A, B, C. done.
Qed.

Lemma loadFromDisk_access_count_witness :
  ∃ lg,
    w_log (workspace_loadFromDisk disk0 "t1" world0).2 =
      w_log world0 ++ lg ++ [WatchStart "t1" "/workspace"] ∧
    count is_readdir lg = 2 ∧ count is_stat lg = 1.
Proof.
  destruct (loadFromDisk_access_count disk0 "t1" "/workspace" world0
              (workspace_loadFromDisk disk0 "t1" world0).2
              [mkFileInfo "/src" true None None;
               mkFileInfo "/src/a.txt" false (Some 5%Z)
                 (Some "2026-01-15T10:00:00.000Z")] eq_refl)
    as (lg & H1 & H2 & H3 & _).
  exists lg. split; [exact H1 | split; [exact H2 | exact H3]].
Defined.

(** ** More on the single-file reads *)




(** X9. A failing disk access of a single-file read is reported, not
    raised: when [fs.stat] rejects, the result is a failure carrying the
    message of the error and [fs.readFile] is not called; when [fs.readFile]
    rejects, the result is a failure carrying its message; a rejection that
    is not an [Error] gives ['Unknown error']. *)
Theorem read_failure_carries_cause
  (cwd : string) (disk : Disk) (tid ws filePath : string) (w : World)
  (Hb : bound_to w tid ws)
  (Hin : inside_workspace cwd ws (Path.join ws (strip_slash filePath)) = true) :
  let fullPath := Path.join ws (strip_slash filePath) in
  let r := workspace_readFile cwd disk tid filePath w in
  let rb := workspace_readBinaryFile cwd disk tid filePath w in
  (∀ e, fs_stat disk fullPath = Throw e →
     r = (ReadFail (error_message e), with_log w [FsStat fullPath]) ∧ rb = r) ∧
  (∀ stat e, fs_stat disk fullPath = Ok stat → st_isDirectory stat = false →
     fs_readFile disk fullPath = Throw e →
     r = (ReadFail (error_message e),
          with_log w [FsStat fullPath; FsReadFile fullPath]) ∧ rb = r) ∧
  error_message JsOther = "Unknown error" ∧
  (∀ m, error_message (JsError m) = m).
Proof.
  intros fullPath r rb. subst r rb.
  unfold workspace_readFile, workspace_readBinaryFile.
  rewrite !(read_handler_cases _ cwd disk tid ws filePath w Hb).
  fold fullPath in Hin |- *. rewrite Hin. simpl.
  split; [|split; [|done]].
  - by intros e ->.
  - by intros stat e -> -> ->.
Qed.

Lemma read_failure_carries_cause_witness :
  bound_to world0 "t1" "/workspace" ∧
  workspace_readFile "/home/u" disk0 "t1" "/missing.txt" world0 =
    (ReadFail "ENOENT: no such file or directory",
     with_log world0 [FsStat "/workspace/missing.txt"]).
Proof.
  assert (H : bound_to world0 "t1" "/workspace")
    by (apply bound_lookup; reflexivity).
  split; [exact H|].
  destruct (read_failure_carries_cause "/home/u" disk0 "t1" "/workspace"
              "/missing.txt" world0 H eq_refl) as (H1 & _).
  exact (proj1 (H1 ENOENT eq_refl)).
Defined.

(** X10. A single-file read only reads: settings store, thread table and
    watchers are as before (no watch is started, unlike
    [workspace:loadFromDisk]), and the disk is accessed at most twice, an
    [fs.stat] and then an [fs.readFile] of the same path. *)
Theorem read_only_reads
  (cwd : string) (disk : Disk) (tid filePath : string) (w : World)
  (binary : bool) :
  let w' := if binary
            then (workspace_readBinaryFile cwd disk tid filePath w).2
            else (workspace_readFile cwd disk tid filePath w).2 in
  w_store w' = w_store w ∧ w_threads w' = w_threads w ∧
  w_watchers w' = w_watchers w ∧
  ∃ p, w_log w' = w_log w ∨
       w_log w' = w_log w ++ [FsStat p] ∨
       w_log w' = w_log w ++ [FsStat p; FsReadFile p].
Proof.
  intros w'.
  assert (H : ∀ decode,
    let w1 := (read_handler cwd disk decode tid filePath w).2 in
    w_store w1 = w_store w ∧ w_threads w1 = w_threads w ∧
    w_watchers w1 = w_watchers w ∧
    ∃ p, w_log w1 = w_log w ∨ w_log w1 = w_log w ++ [FsStat p] ∨
         w_log w1 = w_log w ++ [FsStat p; FsReadFile p]).
  { intros decode.
    destruct (truthy (workspacePath_of (metadata_of (getThread tid w))))
      as [ws|] eqn:Hb.
    - apply bound_lookup in Hb.
      rewrite (read_handler_cases decode cwd disk tid ws filePath w Hb).
      set (p := Path.join ws (strip_slash filePath)).
      destruct (negb _); [by repeat split; auto; exists p; left|].
      destruct (fs_stat disk p) as [stat|e].
      + destruct (st_isDirectory stat).
        * repeat split; auto. exists p. right. by left.
        * destruct (fs_readFile disk p);
            (repeat split; auto; exists p; right; by right).
      + repeat split; auto. exists p. right. by left.
    - apply unbound_lookup in Hb. rewrite read_handler_unbound by done.
      repeat split; auto. exists "". by left. }
  subst w'. destruct binary; apply H.
Qed.

(** ** The registry and the state across requests *)

(** X11. Whatever the credentials, [models:list] and [models:listProviders]
    agree: every model returned belongs to a provider that
    [models:listProviders] returns, and is available exactly when that
    provider has a key; the model identifiers are pairwise distinct; and the
    fallback default ['claude-sonnet-4-5-20250929'] is one of them. *)
Theorem models_agree_with_providers (hasApiKey : string → bool) :
  Forall (λ m, ∃ p, p ∈ models_listProviders hasApiKey ∧
                    p_id p = m_provider m ∧ p_hasApiKey p = m_available m)
    (models_list hasApiKey) ∧
  NoDup (map m_id (models_list hasApiKey)) ∧
  (∃ m, m ∈ models_list hasApiKey ∧ m_id m = DEFAULT_MODEL).
Proof.
  split; [|split].
  - unfold models_list. apply Forall_forall.
    intros m (m0 & <- & Hm0)%List.in_map_iff. simpl.
    assert (Hp : ∃ pe, In pe PROVIDERS ∧ pe_id pe = m_provider m0).
    { revert m0 Hm0. apply Forall_forall. unfold AVAILABLE_MODELS, PROVIDERS.
      repeat constructor; simpl;
        first [ by eexists (mkProviderEntry anthropic _); split; [auto 6|]
              | by eexists (mkProviderEntry openai _); split; [auto 6|]
              | by eexists (mkProviderEntry google _); split; [auto 6|]
              | by eexists (mkProviderEntry zai _); split; [auto 6|] ]. }
    destruct Hp as (pe & Hin & Hid).
    exists (mkProvider (pe_id pe) (pe_name pe)
              (hasApiKey (providerId_string (pe_id pe)))).
    split; [|by rewrite Hid].
    apply list_elem_of_In. unfold models_listProviders.
    apply in_map_iff. by exists pe.
  - unfold models_list. rewrite map_map. simpl.
    apply (bool_decide_unpack _). by vm_compute.
  - exists (mkModel "claude-sonnet-4-5-20250929" "Claude Sonnet 4.5" anthropic
              "claude-sonnet-4-5-20250929"
              (Some "Best balance of intelligence, speed, and cost for agents")
              (hasApiKey "anthropic")).
    split; [|done]. unfold models_list, AVAILABLE_MODELS. simpl.
    apply list_elem_of_In. right. by left.
Qed.

(** The state after a request, request by request. *)
Lemma loadFromDisk_world disk tid w :
  ∃ lg, (workspace_loadFromDisk disk tid w).2 = with_log w lg ∨
        ∃ ws, bound_to w tid ws ∧
              (workspace_loadFromDisk disk tid w).2 =
              startWatching tid ws (with_log w lg).
Proof.
  destruct (truthy (workspacePath_of (metadata_of (getThread tid w))))
    as [ws|] eqn:Hb.
  - apply bound_lookup in Hb.
    pose proof (loadFromDisk_cases disk tid ws w Hb) as H.
    destruct (fs_readdir disk ws) as [es|e].
    + destruct H as (lg & _ & H). exists (FsReaddir ws :: lg).
      destruct (first_failure es); rewrite H; simpl; [by left|].
      right. by exists ws.
    + exists [FsReaddir ws]. left. by rewrite H.
  - apply unbound_lookup in Hb. exists []. left.
    by rewrite loadFromDisk_unbound, with_log_nil.
Qed.

Lemma serve_all_snoc cwd disk w rs r :
  serve_all cwd disk w (rs ++ [r]) = serve cwd disk (serve_all cwd disk w rs) r.
Proof. unfold serve_all. by rewrite fold_left_app. Qed.

Lemma last_default_snoc rs r :
  last_default (rs ++ [r]) =
  match r with
  | ModelsSetDefault modelId => Some modelId
  | _ => last_default rs
  end.
Proof. unfold last_default. by rewrite fold_left_app. Qed.

(** X12. After any sequence of requests the default model is the one of the
    last [models:setDefault] in the sequence, and what it was before when
    there is none: no other handler writes the setting. *)
Theorem default_model_is_last_set
  (cwd : string) (disk : Disk) (w : World) (rs : list Request) :
  getDefaultModel (serve_all cwd disk w rs) =
  default (getDefaultModel w) (last_default rs).
Proof.
  induction rs as [|r rs IH] using rev_ind; [done|].
  rewrite serve_all_snoc, last_default_snoc.
  destruct (sets_default r) eqn:Hr.
  - destruct r; try discriminate. simpl.
    unfold getDefaultModel, models_setDefault, store_get. simpl.
    by rewrite lookup_insert_eq.
  - transitivity (getDefaultModel (serve_all cwd disk w rs)).
    + unfold getDefaultModel, store_get.
      by rewrite serve_keeps_default.
    + rewrite IH. by destruct r.
Qed.


Lemma with_log_inv w lg : with_log w lg = w → lg = [].
Proof.
  intros H. apply (f_equal w_log) in H. simpl in H.
  apply (f_equal length) in H. rewrite length_app in H.
  destruct lg; [done | simpl in H; lia].
Qed.

Lemma loadFromDisk_traverse_success disk tid w files p w1 :
  loadFromDisk_traverse disk tid w = (LoadTraversed files p, w1) →
  bound_to w tid p ∧ ∃ lg, w1 = with_log w lg.
Proof.
  unfold loadFromDisk_traverse. intros H.
  destruct (truthy (workspacePath_of (metadata_of (getThread tid w))))
    as [ws|] eqn:Hb; [|discriminate].
  unfold readDir, bind, fs_effect, modify, await in H. simpl in H.
  destruct (fs_readdir disk ws) as [es|e]; [|discriminate].
  pose proof (forEntries_outcome ws "" es [] (log (FsReaddir ws) w)) as Ho.
  unfold entries_outcome in Ho.
  destruct (first_failure es) as [e|].
  - destruct Ho as (fs' & lg & Ho & _). rewrite Ho in H. discriminate.
  - destruct Ho as (lg & Ho & _). rewrite Ho in H. injection H as <- <- <-.
    split; [by apply bound_lookup|]. exists (FsReaddir ws :: lg).
    by rewrite log_with_log, with_log_app.
Qed.

(** X13. The watch of a session need not follow its binding.
    [workspace:loadFromDisk] reads the binding, awaits the traversal and
    only then starts the watch, on the root it read at the start; run in one
    go the two stretches are the handler itself.  When a [workspace:set]
    for the same session, with another path or with [null], is served while
    the traversal is awaited, the load still succeeds with the old root and
    leaves the session watched on it, although its metadata now holds the
    new value and [workspace:get] answers accordingly. *)
Theorem stale_watch_after_interleaved_set
  (disk : Disk) (tid p : string) (newPath : option string)
  (files : list FileInfo) (w w1 : World)
  (Htid : tid ≠ "")
  (Htr : loadFromDisk_traverse disk tid w = (LoadTraversed files p, w1))
  (Hnew : newPath ≠ Some p) :
  let w2 := (workspace_set (Some tid) newPath w1).2 in
  let r := loadFromDisk_finish tid (LoadTraversed files p) w2 in
  workspace_loadFromDisk disk tid w =
    loadFromDisk_finish tid (LoadTraversed files p) w1 ∧
  r.1 = LoadOk files p ∧
  w_watchers r.2 !! tid = Some p ∧
  metadata_of (w_threads r.2 !! tid) !! "workspacePath"
    = Some (js_of_path newPath) ∧
  workspace_get (Some tid) r.2 = truthy newPath ∧
  ¬ watch_consistent r.2.
Proof.
  intros w2 r.
  destruct (loadFromDisk_traverse_success disk tid w files p w1 Htr)
    as ((th & md & Hth & Hmd & Hp & Hne) & lg & ->).
  assert (Hset := workspace_set_existing tid newPath th (with_log w lg) Htid Hth).
  assert (Hmeta : metadata_of (w_threads r.2 !! tid) !! "workspacePath"
                  = Some (js_of_path newPath)).
  { subst r w2. rewrite Hset. simpl.
    destruct (truthy newPath); simpl;
      rewrite lookup_alter_eq, Hth; simpl; by rewrite lookup_insert_eq. }
  split.
  { unfold workspace_loadFromDisk. unfold loadFromDisk_traverse in Htr.
    destruct (truthy (workspacePath_of (metadata_of (getThread tid w))));
      [|discriminate].
    destruct (readDir _ _ _ _) as [[[]|e] [fs' w']]; [|discriminate].
    by injection Htr as -> -> ->. }
  split; [done|]. split; [subst r; simpl; by rewrite lookup_insert_eq|].
  split; [exact Hmeta|]. split.
  - unfold workspace_get, getThread. rewrite (truthy_id tid Htid).
    unfold metadata_of, workspacePath_of in *.
    subst r w2. rewrite Hset in *. simpl in *.
    destruct (truthy newPath) eqn:Ht; simpl in *;
      rewrite lookup_alter_eq, Hth in *; simpl in *;
      rewrite lookup_insert_eq in *; destruct newPath; simpl in *; congruence.
  - intros Hc. specialize (Hc tid p).
    rewrite Hmeta in Hc. subst r. simpl in Hc. rewrite lookup_insert_eq in Hc.
    specialize (Hc eq_refl). destruct newPath as [q|]; [|discriminate].
    injection Hc as ->. by destruct Hnew.
Qed.

Lemma stale_watch_after_interleaved_set_witness :
  "t1" ≠ "" ∧
  Some "/repo" ≠ Some "/workspace" ∧
  (loadFromDisk_traverse disk0 "t1" world0).1 =
    LoadTraversed
      [mkFileInfo "/src" true None None;
       mkFileInfo "/src/a.txt" false (Some 5%Z) (Some "2026-01-15T10:00:00.000Z")]
      "/workspace" ∧
  w_watchers
    (loadFromDisk_finish "t1" (loadFromDisk_traverse disk0 "t1" world0).1
       (workspace_set (Some "t1") (Some "/repo")
          (loadFromDisk_traverse disk0 "t1" world0).2).2).2 !! "t1"
  = Some "/workspace" ∧
  workspace_get (Some "t1")
    (loadFromDisk_finish "t1" (loadFromDisk_traverse disk0 "t1" world0).1
       (workspace_set (Some "t1") (Some "/repo")
          (loadFromDisk_traverse disk0 "t1" world0).2).2).2
  = Some "/repo".
Proof.
  split; [discriminate|]. split; [discriminate|]. split; [reflexivity|].
  destruct (stale_watch_after_interleaved_set disk0 "t1" "/workspace"
              (Some "/repo")
              [mkFileInfo "/src" true None None;
               mkFileInfo "/src/a.txt" false (Some 5%Z)
                 (Some "2026-01-15T10:00:00.000Z")]
              world0 (loadFromDisk_traverse disk0 "t1" world0).2
              ltac:(discriminate) eq_refl ltac:(discriminate))
    as (_ & _ & H3 & _ & H5 & _).
  split; [exact H3 | exact H5].
Defined.

Lemma serve_threads cwd disk w r tid key :
  key ≠ "workspacePath" →
  (is_Some (w_threads (serve cwd disk w r) !! tid) ↔
   is_Some (w_threads w !! tid)) ∧
  metadata_of (w_threads (serve cwd disk w r) !! tid) !! key =
    metadata_of (w_threads w !! tid) !! key.
Proof.
  intros Hkey.
  destruct r as [| |t|t p|picked t|t|t fp|t fp]; simpl; try done.
  - unfold workspace_set. destruct (truthy t) as [t0|].
    + destruct (getThread t0 w) as [th|] eqn:Hth; [|done].
      unfold getThread in Hth.
      assert (H : ∀ w1, w_threads w1 = w_threads (updateThread t0
                   (<["workspacePath" := js_of_path p]> (metadata_of (Some th))) w) →
                (is_Some (w_threads w1 !! tid) ↔ is_Some (w_threads w !! tid)) ∧
                metadata_of (w_threads w1 !! tid) !! key =
                  metadata_of (w_threads w !! tid) !! key).
      { intros w1 ->. simpl. destruct (decide (tid = t0)) as [->|Hne].
        - rewrite lookup_alter_eq, Hth. simpl. rewrite lookup_insert_ne by done.
          split; [split; eauto | done].
        - by rewrite lookup_alter_ne. }
      destruct (truthy p); apply H; reflexivity.
    + by destruct (truthy p).
  - unfold workspace_select. destruct picked as [sel|]; [|done].
    destruct (truthy t) as [t0|]; [|done].
    destruct (getThread t0 w) as [th|] eqn:Hth; [|done].
    unfold getThread in Hth. simpl.
    destruct (decide (tid = t0)) as [->|Hne].
    + rewrite lookup_alter_eq, Hth. simpl. rewrite lookup_insert_ne by done.
      split; [split; eauto | done].
    + by rewrite lookup_alter_ne.
  - destruct (loadFromDisk_world disk t w) as (lg & [H | (ws & _ & H)]);
      by rewrite H.
  - destruct (read_handler_frame Utf8.decode cwd disk t fp w) as (lg & H & _).
    unfold workspace_readFile. by rewrite H.
  - destruct (read_handler_frame Base64.encode cwd disk t fp w) as (lg & H & _).
    unfold workspace_readBinaryFile. by rewrite H.
Qed.

(** X14. No sequence of requests creates or deletes a session, and none
    changes a session's metadata outside the key [workspacePath]. *)
Theorem sessions_are_neither_created_nor_deleted
  (cwd : string) (disk : Disk) (w : World) (rs : list Request)
  (tid key : string) (Hkey : key ≠ "workspacePath") :
  (is_Some (w_threads (serve_all cwd disk w rs) !! tid) ↔
   is_Some (w_threads w !! tid)) ∧
  metadata_of (w_threads (serve_all cwd disk w rs) !! tid) !! key =
    metadata_of (w_threads w !! tid) !! key.
Proof.
  induction rs as [|r rs IH] using rev_ind; [done|].
  rewrite serve_all_snoc.
  destruct (serve_threads cwd disk (serve_all cwd disk w rs) r tid key Hkey)
    as [H1 H2].
  destruct IH as [IH1 IH2]. split; [by rewrite H1 | by rewrite H2].
Qed.

Lemma sessions_are_neither_created_nor_deleted_witness :
  "title" ≠ "workspacePath" ∧
  (is_Some (w_threads
              (serve_all "/home/u" disk0 world0
                 [WorkspaceSet (Some "t2") (Some "/repo");
                  WorkspaceSelect (Some "/x") (Some "t3")]) !! "t2") ↔
   is_Some (w_threads world0 !! "t2")).
Proof.
  split; [discriminate|].
  apply (sessions_are_neither_created_nor_deleted "/home/u" disk0 world0
           [WorkspaceSet (Some "t2") (Some "/repo");
            WorkspaceSelect (Some "/x") (Some "t3")] "t2" "title").
  discriminate.
Defined.

Lemma serve_store cwd disk w r key :
  key ≠ "defaultModel" → key ≠ "workspacePath" →
  w_store (serve cwd disk w r) !! key = w_store w !! key.
Proof.
  intros H1 H2.
  destruct r as [| |t|t p|picked t|t|t fp|t fp]; simpl; try done.
  - by rewrite lookup_insert_ne.
  - unfold workspace_set. destruct (truthy t) as [t0|].
    + destruct (getThread t0 w); [|done]. by destruct (truthy p).
    + destruct (truthy p); simpl.
      * by rewrite lookup_insert_ne.
      * by rewrite lookup_delete_ne.
  - unfold workspace_select. destruct picked as [sel|]; [|done].
    destruct (truthy t) as [t0|].
    + by destruct (getThread t0 w).
    + simpl. by rewrite lookup_insert_ne.
  - by rewrite loadFromDisk_store.
  - destruct (read_handler_frame Utf8.decode cwd disk t fp w) as (lg & H & _).
    unfold workspace_readFile. by rewrite H.
  - destruct (read_handler_frame Base64.encode cwd disk t fp w) as (lg & H & _).
    unfold workspace_readBinaryFile. by rewrite H.
Qed.

(** X15. The handlers write two settings only, [defaultModel] and
    [workspacePath]: every other key of the settings store has, after any
    sequence of requests, the value it had before. *)
Theorem settings_written_are_two_keys
  (cwd : string) (disk : Disk) (w : World) (rs : list Request) (key : string)
  (H1 : key ≠ "defaultModel") (H2 : key ≠ "workspacePath") :
  w_store (serve_all cwd disk w rs) !! key = w_store w !! key.
Proof.
  induction rs as [|r rs IH] using rev_ind; [done|].
  rewrite serve_all_snoc. by rewrite serve_store.
Qed.

Lemma settings_written_are_two_keys_witness :
  "theme" ≠ "defaultModel" ∧ "theme" ≠ "workspacePath" ∧
  w_store
    (serve_all "/home/u" disk0 world0
       [ModelsSetDefault "gpt-5.2"; WorkspaceSet None (Some "/repo")])
    !! "theme" = w_store world0 !! "theme".
Proof.
  split; [discriminate|]. split; [discriminate|].
  apply settings_written_are_two_keys; discriminate.
Defined.



(** ** Paths that never leave the workspace *)

Lemma segments_from_app_sep a : ∀ cur b,
  Path.segments_from cur (a +:+ "/" +:+ b) =
  Path.segments_from cur a ++ Path.segments_from "" b.
Proof.
  induction a as [|c a IH]; intros cur b; [done|].
  change (String c a +:+ "/" +:+ b) with (String c (a +:+ "/" +:+ b)).
  cbn [Path.segments_from]. destruct (Path.isSep c); by rewrite IH.
Qed.

Lemma segments_slash_free seg :
  slash_free seg = true → Path.segments seg = [seg].
Proof.
  intros H. unfold Path.segments. rewrite <- (append_nil_r seg) at 1.
  by rewrite segments_from_append.
Qed.

Lemma segments_join x l :
  Forall (λ seg, slash_free seg = true) (x :: l) →
  Path.segments (Path.join_segments (x :: l)) = x :: l.
Proof.
  revert x. induction l as [|y l IH]; intros x H.
  - apply segments_slash_free. by inversion H.
  - change (Path.join_segments (x :: y :: l))
      with (x +:+ "/" +:+ Path.join_segments (y :: l)).
    unfold Path.segments. rewrite segments_from_app_sep.
    inversion H; subst. fold (Path.segments x).
    rewrite segments_slash_free by done.
    fold (Path.segments (Path.join_segments (y :: l))). by rewrite IH.
Qed.

Lemma step_kept b res seg :
  seg ≠ ".." →
  Path.step b res seg = if kept seg then seg :: res else res.
Proof.
  intros H. unfold Path.step, kept.
  destruct (String.eqb seg ""); [done|].
  destruct (String.eqb seg "."); [done|].
  destruct (String.eqb seg "..") eqn:He; [|done].
  by apply String.eqb_eq in He.
Qed.

Lemma fold_step_no_dotdot b segs : ∀ res,
  Forall (λ seg, seg ≠ "..") segs →
  fold_left (Path.step b) segs res = rev (List.filter kept segs) ++ res.
Proof.
  induction segs as [|seg segs IH]; intros res H; [done|].
  inversion H; subst. simpl. rewrite step_kept, IH by done.
  destruct (kept seg); [|done]. simpl. by rewrite <- app_assoc.
Qed.

Lemma clean_kept seg : clean_segment seg → kept seg = true ∧ seg ≠ "..".
Proof.
  intros (_ & H1 & H2 & H3). split; [|done]. unfold kept.
  apply String.eqb_neq in H1, H2. by rewrite H1, H2.
Qed.

Lemma filter_kept_clean l :
  Forall clean_segment l → List.filter kept l = l.
Proof.
  induction 1 as [|x l Hx _ IH]; [done|]. simpl.
  destruct (clean_kept x Hx) as [-> _]. by rewrite IH.
Qed.

Lemma fold_step_clean_segments l res :
  Forall clean_segment l →
  fold_left (Path.step false) l res = rev l ++ res.
Proof.
  intros H. rewrite fold_step_no_dotdot.
  - by rewrite filter_kept_clean.
  - induction H as [|seg l Hs _ IH]; constructor; [by apply clean_kept | done].
Qed.

Lemma step_clean res seg :
  Forall clean_segment res → slash_free seg = true →
  Forall clean_segment (Path.step false res seg).
Proof.
  intros Hres Hseg. unfold Path.step.
  destruct (String.eqb seg "") eqn:H1; [done|].
  destruct (String.eqb seg ".") eqn:H2; [done|].
  destruct (String.eqb seg "..") eqn:H3.
  - destruct res as [|top below]; [done|].
    destruct (String.eqb top ".."); [done|]. by inversion Hres.
  - constructor; [|done].
    apply String.eqb_neq in H1, H2, H3. by repeat split.
Qed.

Lemma stack_of_clean p : Forall clean_segment (stack_of p).
Proof.
  unfold stack_of, Path.segments.
  assert (H : ∀ segs res, Forall clean_segment res →
            Forall (λ seg, slash_free seg = true) segs →
            Forall clean_segment (fold_left (Path.step false) segs res)).
  { induction segs as [|seg segs IH]; intros res Hres Hsegs; [done|].
    inversion Hsegs; subst. simpl. apply IH; [by apply step_clean | done]. }
  apply H; [constructor | by apply segments_from_slash_free].
Qed.

Lemma absolute_not_empty p : Path.isAbsolute p = true → Js.isEmpty p = false.
Proof. by destruct p. Qed.

(** [path.resolve] of an absolute path: [/] and the kept segments. *)
Lemma resolve_absolute cwd p :
  Path.isAbsolute p = true →
  Path.resolve cwd p = "/" +:+ Path.join_segments (rev (stack_of p)).
Proof.
  intros Habs. unfold Path.resolve, Path.normalizeString.
  rewrite (absolute_not_empty p Habs), Habs.
  replace (p +:+ "/") with (p +:+ "/" +:+ "") by done.
  unfold Path.segments. rewrite segments_from_app_sep.
  rewrite fold_left_app. done.
Qed.

(** [path.normalize] of an absolute path: [/], the kept segments, and
    possibly a trailing separator. *)
Lemma normalize_absolute p :
  Path.isAbsolute p = true →
  ∃ s, (s = "" ∨ s = "/") ∧
       Path.normalize p = "/" +:+ Path.join_segments (rev (stack_of p)) +:+ s.
Proof.
  intros Habs. unfold Path.normalize, Path.normalizeString.
  rewrite (absolute_not_empty p Habs), Habs. simpl. fold (stack_of p).
  destruct (Js.isEmpty (Path.join_segments (rev (stack_of p)))) eqn:He.
  - exists "". split; [by left|].
    destruct (Path.join_segments (rev (stack_of p))); [done | discriminate].
  - destruct (Path.trailingSeparator p).
    + exists "/". split; [by right | done].
    + exists "". split; [by left|]. by rewrite append_nil_r.
Qed.

(** Normalizing twice keeps the same segments. *)
Lemma stack_of_normalized l s :
  Forall clean_segment l → s = "" ∨ s = "/" →
  stack_of ("/" +:+ Path.join_segments l +:+ s) = rev l.
Proof.
  intros Hl Hs. unfold stack_of, Path.segments.
  change ("/" +:+ Path.join_segments l +:+ s)
    with ("" +:+ "/" +:+ (Path.join_segments l +:+ s)).
  rewrite segments_from_app_sep. simpl.
  destruct l as [|x l].
  - destruct Hs as [-> | ->]; reflexivity.
  - assert (Hsf : Forall (λ seg, slash_free seg = true) (x :: l)).
    { clear Hs. induction Hl as [|seg l' [Hs _] _ IH]; by constructor. }
    destruct Hs as [-> | ->].
    + rewrite append_nil_r. fold (Path.segments (Path.join_segments (x :: l))).
      rewrite segments_join by done.
      rewrite fold_step_clean_segments by done. by rewrite app_nil_r.
    + replace (Path.join_segments (x :: l) +:+ "/")
        with (Path.join_segments (x :: l) +:+ "/" +:+ "") by done.
      rewrite segments_from_app_sep.
      fold (Path.segments (Path.join_segments (x :: l))).
      rewrite segments_join by done. rewrite fold_left_app.
      rewrite (fold_step_clean_segments (x :: l)) by done. rewrite app_nil_r.
      reflexivity.
Qed.

Lemma clean_rev l : Forall clean_segment l → Forall clean_segment (rev l).
Proof. apply Forall_rev. Qed.

Lemma resolve_normalize cwd p :
  Path.isAbsolute p = true →
  Path.resolve cwd (Path.normalize p) = Path.resolve cwd p.
Proof.
  intros Habs. destruct (normalize_absolute p Habs) as (s & Hs & ->).
  rewrite !resolve_absolute by done.
  rewrite stack_of_normalized; [| apply clean_rev, stack_of_clean | done].
  by rewrite rev_involutive.
Qed.

Lemma segments_prefix_app l k : segments_prefix l (l ++ k) = true.
Proof. induction l as [|x l IH]; [done|]. simpl. by rewrite String.eqb_refl. Qed.

Lemma stack_of_joined ws rel :
  no_dotdot rel →
  rev (stack_of (ws +:+ "/" +:+ rel)) =
  rev (stack_of ws) ++ List.filter kept (Path.segments rel).
Proof.
  intros H. unfold stack_of at 1. unfold Path.segments at 1.
  rewrite segments_from_app_sep, fold_left_app.
  fold (Path.segments ws) (Path.segments rel) (stack_of ws).
  rewrite fold_step_no_dotdot by done.
  by rewrite rev_app_distr, rev_involutive.
Qed.

Lemma no_dotdot_strip filePath : no_dotdot filePath → no_dotdot (strip_slash filePath).
Proof.
  unfold strip_slash, no_dotdot. destruct filePath as [|c rest]; [done|].
  change (Js.startsWith (String c rest) "/") with (Ascii.eqb "/" c && true).
  rewrite andb_true_r. destruct (Ascii.eqb "/" c) eqn:Hc; [|done].
  apply Ascii.eqb_eq in Hc. subst c. unfold Path.segments. simpl.
  by inversion 1.
Qed.

(** The sandbox check passes for every path without a [..] segment. *)
Lemma inside_workspace_without_dotdot cwd ws filePath :
  Path.isAbsolute ws = true → no_dotdot filePath →
  inside_workspace cwd ws (Path.join ws (strip_slash filePath)) = true.
Proof.
  intros Habs Hnd%no_dotdot_strip. set (rel := strip_slash filePath) in *.
  unfold inside_workspace, Path.join.
  rewrite (absolute_not_empty ws Habs).
  assert (Hx : ∃ k, Path.resolve cwd
                      (if Js.isEmpty rel then Path.normalize ws
                       else Path.normalize (ws +:+ "/" +:+ rel)) =
                    "/" +:+ Path.join_segments (rev (stack_of ws) ++ k)).
  { destruct (Js.isEmpty rel).
    - exists []. rewrite resolve_normalize, resolve_absolute by done.
      by rewrite app_nil_r.
    - exists (List.filter kept (Path.segments rel)).
      assert (Habs' : Path.isAbsolute (ws +:+ "/" +:+ rel) = true)
        by by destruct ws.
      rewrite resolve_normalize, resolve_absolute by done.
      by rewrite stack_of_joined. }
  destruct Hx as (k & Hx).
  replace (match Js.isEmpty rel with
           | true => Path.normalize ws
           | false => Path.normalize (ws +:+ "/" +:+ rel)
           end)
    with (if Js.isEmpty rel then Path.normalize ws
          else Path.normalize (ws +:+ "/" +:+ rel)) by done.
  rewrite Hx, resolve_absolute by done.
  change (Js.startsWith ("/" +:+ ?a) ("/" +:+ ?b)) with (Js.startsWith a b).
  apply segments_prefix_startsWith, segments_prefix_app.
Qed.

(** X16. For a session bound to an absolute root, a virtual path none of
    whose segments is [..] is never denied: the check passes and the read
    goes on to [fs.stat] of the joined path.  This holds of hidden names
    too: the filter of the listing is not applied to single-file reads. *)
Theorem read_without_dotdot_is_admitted
  (cwd : string) (disk : Disk) (tid ws filePath : string) (w : World)
  (Hb : bound_to w tid ws) (Habs : Path.isAbsolute ws = true)
  (Hnd : no_dotdot filePath) :
  let fullPath := Path.join ws (strip_slash filePath) in
  inside_workspace cwd ws fullPath = true ∧
  (∃ rest, w_log (workspace_readFile cwd disk tid filePath w).2 =
           w_log w ++ FsStat fullPath :: rest) ∧
  (∃ rest, w_log (workspace_readBinaryFile cwd disk tid filePath w).2 =
           w_log w ++ FsStat fullPath :: rest).
Proof.
  intros fullPath.
  pose proof (inside_workspace_without_dotdot cwd ws filePath Habs Hnd) as Hin.
  fold fullPath in Hin. split; [done|].
  unfold workspace_readFile, workspace_readBinaryFile.
  rewrite !(read_handler_cases _ cwd disk tid ws filePath w Hb).
  fold fullPath. rewrite Hin. simpl.
  destruct (fs_stat disk fullPath) as [stat|e].
  - destruct (st_isDirectory stat); [split; by exists []|].
    destruct (fs_readFile disk fullPath); split; by exists [FsReadFile fullPath].
  - split; by exists [].
Qed.

Lemma read_without_dotdot_is_admitted_witness :
  bound_to world0 "t1" "/workspace" ∧
  Path.isAbsolute "/workspace" = true ∧
  no_dotdot "/.git/HEAD" ∧
  ∃ rest, w_log (workspace_readFile "/home/u" disk0 "t1" "/.git/HEAD" world0).2 =
          w_log world0 ++ FsStat "/workspace/.git/HEAD" :: rest.
Proof.
  assert (H : bound_to world0 "t1" "/workspace")
    by (apply bound_lookup; reflexivity).
  assert (Hnd : no_dotdot "/.git/HEAD")
    by (unfold no_dotdot; vm_compute; repeat constructor; discriminate).
  split; [exact H|]. split; [reflexivity|]. split; [exact Hnd|].
  exact (proj1 (proj2 (read_without_dotdot_is_admitted "/home/u" disk0 "t1"
                         "/workspace" "/.git/HEAD" world0 H eq_refl Hnd))).
Defined.

(** X17. The check never turns away a path inside the workspace: when the
    components of the resolved root are, one by one, the first components
    of the resolved target, the check passes and the read goes on to
    [fs.stat]; this holds for relative roots and for paths with [..]
    segments as well. *)
Theorem read_inside_root_is_admitted
  (cwd : string) (disk : Disk) (tid ws filePath : string) (w : World)
  (Hb : bound_to w tid ws)
  (Hin : component_prefix (Path.resolve cwd ws)
           (Path.resolve cwd (Path.join ws (strip_slash filePath))) = true) :
  let fullPath := Path.join ws (strip_slash filePath) in
  inside_workspace cwd ws fullPath = true ∧
  ∃ rest, w_log (workspace_readFile cwd disk tid filePath w).2 =
          w_log w ++ FsStat fullPath :: rest.
Proof.
  intros fullPath. apply component_prefix_passes_check in Hin.
  fold fullPath in Hin. split; [done|].
  unfold workspace_readFile.
  rewrite (read_handler_cases _ cwd disk tid ws filePath w Hb).
  fold fullPath. rewrite Hin. simpl.
  destruct (fs_stat disk fullPath) as [stat|e]; [|by exists []].
  destruct (st_isDirectory stat); [by exists []|].
  destruct (fs_readFile disk fullPath); by exists [FsReadFile fullPath].
Qed.

Lemma read_inside_root_is_admitted_witness :
  bound_to world0 "t1" "/workspace" ∧
  component_prefix (Path.resolve "/home/u" "/workspace")
    (Path.resolve "/home/u"
       (Path.join "/workspace" (strip_slash "/src/../src/a.txt"))) = true ∧
  inside_workspace "/home/u" "/workspace"
    (Path.join "/workspace" (strip_slash "/src/../src/a.txt")) = true.
Proof.
  assert (H : bound_to world0 "t1" "/workspace")
    by (apply bound_lookup; reflexivity).
  split; [exact H|]. split; [reflexivity|].
  exact (proj1 (read_inside_root_is_admitted "/home/u" disk0 "t1" "/workspace"
                  "/src/../src/a.txt" world0 H eq_refl)).
Defined.

Lemma string_length_append a b :
  String.length (a +:+ b) = String.length a + String.length b.
Proof. induction a as [|c a IH]; simpl; [done | by rewrite IH]. Qed.

Lemma startsWith_length s : ∀ p,
  Js.startsWith s p = true → (String.length p ≤ String.length s)%nat.
Proof.
  induction s as [|c s IH]; intros p H; destruct p as [|d p].
  - done.
  - discriminate H.
  - simpl. lia.
  - change (Ascii.eqb d c && Js.startsWith s p = true) in H.
    apply andb_true_iff in H as [_ H]. apply IH in H. simpl. lia.
Qed.

Lemma join_segments_longer l : ∀ k,
  Forall proper_segment (l ++ k) → k ≠ [] →
  (String.length (Path.join_segments l) <
   String.length (Path.join_segments (l ++ k)))%nat.
Proof.
  induction l as [|a l IH]; intros k Hp Hk.
  - destruct k as [|x k]; [done|]. simpl in *.
    inversion Hp as [|? ? [_ Hx] _]; subst.
    destruct x as [|c x]; [discriminate|].
    destruct k; simpl; [lia|]. rewrite string_length_append. simpl. lia.
  - destruct l as [|b l].
    + destruct k as [|x k]; [done|].
      change (Path.join_segments ([a] ++ x :: k))
        with (a +:+ "/" +:+ Path.join_segments (x :: k)).
      simpl. rewrite string_length_append. simpl. lia.
    + change (Path.join_segments ((a :: b :: l) ++ k))
        with (a +:+ "/" +:+ Path.join_segments ((b :: l) ++ k)).
      change (Path.join_segments (a :: b :: l))
        with (a +:+ "/" +:+ Path.join_segments (b :: l)).
      rewrite !string_length_append.
      inversion Hp; subst. specialize (IH k ltac:(done) Hk). lia.
Qed.

Lemma resolve_components_proper cwd p :
  ∃ l, Path.resolve cwd p = "/" +:+ Path.join_segments l ∧
       components (Path.resolve cwd p) = l ∧ Forall proper_segment l.
Proof.
  unfold Path.resolve, Path.normalizeString.
  set (x := if Js.isEmpty p then _ else _).
  assert (Hl : Forall proper_segment
                 (rev (fold_left (Path.step false) (Path.segments x) []))).
  { apply Forall_rev.
    apply fold_step_proper; [constructor|]. by apply segments_from_slash_free. }
  eexists. split; [done|]. split; [by apply components_join | done].
Qed.

(** X22. Climbing out to an ancestor is always denied: when the resolved
    target is a proper ancestor of the resolved root (its components are a
    proper prefix of the root's), both single-file reads return the
    access-denied failure and leave the world untouched. *)
Theorem read_of_ancestor_is_denied
  (cwd : string) (disk : Disk) (tid ws filePath : string) (w : World)
  (below : list string)
  (Hb : bound_to w tid ws) (Hbelow : below ≠ [])
  (Hanc : components (Path.resolve cwd ws) =
          components (Path.resolve cwd (Path.join ws (strip_slash filePath)))
          ++ below) :
  workspace_readFile cwd disk tid filePath w =
    (ReadFail "Access denied: path outside workspace", w) ∧
  workspace_readBinaryFile cwd disk tid filePath w =
    (ReadFail "Access denied: path outside workspace", w).
Proof.
  set (fullPath := Path.join ws (strip_slash filePath)) in *.
  assert (Hin : inside_workspace cwd ws fullPath = false).
  { unfold inside_workspace.
    destruct (resolve_components_proper cwd ws) as (lw & Hw & Hcw & Hpw).
    destruct (resolve_components_proper cwd fullPath) as (lf & Hf & Hcf & _).
    rewrite Hcw, Hcf in Hanc. subst lw. rewrite Hw, Hf.
    destruct (Js.startsWith _ _) eqn:Hs; [|done].
    apply startsWith_length in Hs. rewrite !string_length_append in Hs.
    pose proof (join_segments_longer lf below Hpw Hbelow). lia. }
  unfold workspace_readFile, workspace_readBinaryFile.
  rewrite !(read_handler_cases _ cwd disk tid ws filePath w Hb).
  fold fullPath. by rewrite Hin.
Qed.

Lemma read_of_ancestor_is_denied_witness :
  bound_to world0 "t1" "/workspace" ∧
  components (Path.resolve "/home/u" "/workspace") =
    components (Path.resolve "/home/u"
                  (Path.join "/workspace" (strip_slash "/src/../..")))
    ++ ["workspace"] ∧
  workspace_readFile "/home/u" disk0 "t1" "/src/../.." world0 =
    (ReadFail "Access denied: path outside workspace", world0).
Proof.
  assert (H : bound_to world0 "t1" "/workspace")
    by (apply bound_lookup; reflexivity).
  split; [exact H|]. split; [reflexivity|].
  exact (proj1 (read_of_ancestor_is_denied "/home/u" disk0 "t1" "/workspace"
                  "/src/../.." world0 ["workspace"] H ltac:(discriminate)
                  eq_refl)).
Defined.


(** ** What the check of the single-file reads admits *)












(** ** The settings dialog *)

Lemma dialog_load_fold getApiKey ps : ∀ acc id,
  let acc' := fold_left (SettingsDialog.load_provider getApiKey) ps acc in
  (id ∈ map SettingsDialog.pc_id ps →
     acc'.1 !! id = Some (if SettingsDialog.configured getApiKey id
                          then SettingsDialog.MASK else []) ∧
     acc'.2 !! id = Some (SettingsDialog.configured getApiKey id)) ∧
  (id ∉ map SettingsDialog.pc_id ps →
     acc'.1 !! id = acc.1 !! id ∧ acc'.2 !! id = acc.2 !! id).
Proof.
  induction ps as [|p ps IH] using rev_ind; intros acc id acc'.
  - split; [by intros ?%elem_of_nil | done].
  - subst acc'. rewrite fold_left_app, map_app. simpl.
    set (acc0 := fold_left (SettingsDialog.load_provider getApiKey) ps acc).
    destruct (IH acc id) as [IHin IHout]. fold acc0 in IHin, IHout.
    assert (Hstep : ∀ a : gmap string SettingsDialog.ustring * gmap string bool,
              let a' := SettingsDialog.load_provider getApiKey a p in
              (id = SettingsDialog.pc_id p →
                 a'.1 !! id = Some (if SettingsDialog.configured getApiKey id
                                    then SettingsDialog.MASK else []) ∧
                 a'.2 !! id = Some (SettingsDialog.configured getApiKey id)) ∧
              (id ≠ SettingsDialog.pc_id p →
                 a'.1 !! id = a.1 !! id ∧ a'.2 !! id = a.2 !! id)).
    { intros a. unfold SettingsDialog.load_provider, SettingsDialog.configured.
      split.
      - intros ->.
        destruct (getApiKey (SettingsDialog.pc_id p)) as [[[|c k]|]|e]; simpl;
          by rewrite !lookup_insert_eq.
      - intros Hne.
        destruct (getApiKey (SettingsDialog.pc_id p)) as [[[|c k]|]|e]; simpl;
          by rewrite !lookup_insert_ne. }
    destruct (Hstep acc0) as [Hhere Hother].
    destruct (decide (id = SettingsDialog.pc_id p)) as [Heq|Hne].
    + split; [intros _; by apply Hhere|].
      intros Hnot. exfalso. apply Hnot. rewrite elem_of_app. right.
      subst id. apply list_elem_of_In. by left.
    + destruct (Hother Hne) as [-> ->]. split.
      * intros [Hin|Hin]%elem_of_app; [by apply IHin|].
        apply list_elem_of_In in Hin as [Hin|[]]. congruence.
      * intros Hnot. apply IHout. intros Hin. apply Hnot.
        rewrite elem_of_app. by left.
Qed.

(** X18. After [loadApiKeys] the component holds no key: for each of the
    four providers the field shows the mask and the provider counts as saved
    when [getApiKey] resolved with a non-empty key, and the field is empty
    and unsaved otherwise (no key, an empty key, or a rejected call); no
    other provider has a field; and the dialog is no longer loading.  The
    key itself is never put in the state. *)
Theorem dialog_load_never_keeps_the_key
  (getApiKey : string → result (option SettingsDialog.ustring))
  (st : SettingsDialog.State) (id : string) :
  let st' := SettingsDialog.loadApiKeys getApiKey st in
  (id ∈ ["anthropic"; "openai"; "google"; "zai"] →
     SettingsDialog.apiKeys st' !! id =
       Some (if SettingsDialog.configured getApiKey id
             then SettingsDialog.MASK else []) ∧
     SettingsDialog.savedKeys st' !! id =
       Some (SettingsDialog.configured getApiKey id)) ∧
  (id ∉ ["anthropic"; "openai"; "google"; "zai"] →
     SettingsDialog.apiKeys st' !! id = None ∧
     SettingsDialog.savedKeys st' !! id = None) ∧
  (∀ v, SettingsDialog.apiKeys st' !! id = Some v →
        v = SettingsDialog.MASK ∨ v = []) ∧
  SettingsDialog.loading st' = false.
Proof.
  intros st'. subst st'. unfold SettingsDialog.loadApiKeys.
  cbn [SettingsDialog.apiKeys SettingsDialog.savedKeys SettingsDialog.loading].
  destruct (dialog_load_fold getApiKey SettingsDialog.PROVIDERS (∅, ∅) id)
    as [Hin Hout].
  change (map SettingsDialog.pc_id SettingsDialog.PROVIDERS)
    with ["anthropic"; "openai"; "google"; "zai"] in Hin, Hout.
  split; [exact Hin|]. split; [|split; [|done]].
  - intros Hnot. destruct (Hout Hnot) as [-> ->]. simpl.
    by rewrite !lookup_empty.
  - intros v Hv.
    destruct (decide (id ∈ ["anthropic"; "openai"; "google"; "zai"])) as [H|H].
    + destruct (Hin H) as [Hk _]. rewrite Hk in Hv. injection Hv as <-.
      destruct (SettingsDialog.configured getApiKey id); auto.
    + destruct (Hout H) as [Hk _]. rewrite Hk in Hv. simpl in Hv.
      rewrite lookup_empty in Hv. discriminate.
Qed.

Lemma dialog_load_never_keeps_the_key_witness :
  "openai" ∈ ["anthropic"; "openai"; "google"; "zai"] ∧
  SettingsDialog.apiKeys
    (SettingsDialog.loadApiKeys
       (λ id, if String.eqb id "openai" then Ok (Some [115; 107; 45; 49]%N)
              else Ok None)
       SettingsDialog.initial) !! "openai" = Some SettingsDialog.MASK.
Proof.
  assert (H : "openai" ∈ ["anthropic"; "openai"; "google"; "zai"])
    by (apply list_elem_of_In; right; by left).
  split; [exact H|].
  exact (proj1 (proj1 (dialog_load_never_keeps_the_key
                         (λ id, if String.eqb id "openai"
                                then Ok (Some [115; 107; 45; 49]%N)
                                else Ok None)
                         SettingsDialog.initial "openai") H)).
Defined.

Lemma dialog_change_strips_mask id typed st :
  SettingsDialog.apiKeys st !! id = Some SettingsDialog.MASK → typed ≠ [] →
  SettingsDialog.handleKeyChange id (SettingsDialog.MASK ++ typed) st =
  SettingsDialog.mkState (<[id := typed]> (SettingsDialog.apiKeys st))
    (<[id := false]> (SettingsDialog.savedKeys st))
    (SettingsDialog.showKeys st) (SettingsDialog.saving st)
    (SettingsDialog.loading st).
Proof.
  intros Hm Ht. unfold SettingsDialog.handleKeyChange.
  rewrite (bool_decide_eq_true_2 _ Hm).
  rewrite (bool_decide_eq_true_2 (16 < length (SettingsDialog.MASK ++ typed))).
  - done.
  - rewrite length_app. destruct typed; [done|]. simpl. lia.
Qed.


(** X19. Typing into a field that shows the mask: whenever the new value
    has more than sixteen code units its first sixteen are dropped, whatever
    they are, so a value made of the mask followed by what was typed is
    stored as what was typed, and text typed in front of the mask loses its
    beginning; a value of at most sixteen units, or any value in a field
    that does not show the mask, is stored as it is.  Either way the
    provider is marked unsaved and the other fields stay as they were. *)
Theorem dialog_typing_over_mask
  (id other : string) (value typed : SettingsDialog.ustring)
  (st : SettingsDialog.State) (Hother : other ≠ id) :
  let st' := SettingsDialog.handleKeyChange id value st in
  (SettingsDialog.apiKeys st !! id = Some SettingsDialog.MASK →
   (16 < length value)%nat →
     SettingsDialog.apiKeys st' !! id = Some (drop 16 value)) ∧
  (SettingsDialog.apiKeys st !! id = Some SettingsDialog.MASK →
   value = SettingsDialog.MASK ++ typed → typed ≠ [] →
     SettingsDialog.apiKeys st' !! id = Some typed) ∧
  (SettingsDialog.apiKeys st !! id ≠ Some SettingsDialog.MASK ∨
   (length value ≤ 16)%nat →
     SettingsDialog.apiKeys st' !! id = Some value) ∧
  SettingsDialog.savedKeys st' !! id = Some false ∧
  SettingsDialog.apiKeys st' !! other = SettingsDialog.apiKeys st !! other ∧
  SettingsDialog.savedKeys st' !! other = SettingsDialog.savedKeys st !! other.
Proof.
  intros st'. subst st'. unfold SettingsDialog.handleKeyChange.
  cbn [SettingsDialog.apiKeys SettingsDialog.savedKeys].
  rewrite !lookup_insert_eq, !lookup_insert_ne by done.
  assert (Hlong : SettingsDialog.apiKeys st !! id = Some SettingsDialog.MASK →
                  (16 < length value)%nat →
                  Some (if bool_decide (SettingsDialog.apiKeys st !! id =
                                        Some SettingsDialog.MASK) &&
                           bool_decide (16 < length value)
                        then drop 16 value else value) = Some (drop 16 value)).
  { intros Hm Hl. by rewrite !bool_decide_eq_true_2. }
  split; [exact Hlong|]. split; [|split; [|done]].
  - intros Hm -> Ht. etrans; [apply Hlong; [done|] | done].
    rewrite length_app. destruct typed; [done|]. simpl. lia.
  - intros [Hm|Hlen].
    + by rewrite bool_decide_eq_false_2.
    + rewrite (bool_decide_eq_false_2 (16 < length value)) by lia.
      by rewrite andb_false_r.
Qed.

Lemma dialog_typing_over_mask_witness :
  "openai" ≠ "zai" ∧
  SettingsDialog.apiKeys
    (SettingsDialog.handleKeyChange "zai" ([97; 98]%N ++ SettingsDialog.MASK)
       (SettingsDialog.mkState {[ "zai" := SettingsDialog.MASK ]} ∅ ∅ ∅ false))
    !! "zai" = Some [8226; 8226]%N ∧
  SettingsDialog.apiKeys
    (SettingsDialog.handleKeyChange "zai" (SettingsDialog.MASK ++ [97]%N)
       (SettingsDialog.mkState {[ "zai" := SettingsDialog.MASK ]} ∅ ∅ ∅ false))
    !! "zai" = Some [97]%N.
Proof.
  split; [discriminate|]. split.
  - apply (proj1 (dialog_typing_over_mask "zai" "openai"
                    ([97; 98]%N ++ SettingsDialog.MASK) []
                    (SettingsDialog.mkState {[ "zai" := SettingsDialog.MASK ]}
                       ∅ ∅ ∅ false) ltac:(discriminate)));
      [reflexivity | simpl; lia].
  - apply (dialog_typing_over_mask "zai" "openai"
             (SettingsDialog.MASK ++ [97]%N) [97]%N
             (SettingsDialog.mkState {[ "zai" := SettingsDialog.MASK ]} ∅ ∅ ∅ false));
      [discriminate | reflexivity | reflexivity | discriminate].
Defined.

(** X20. [saveApiKey] sends nothing and changes nothing when the field is
    missing, empty or showing the mask.  Otherwise it calls [setApiKey]
    once, with the content of the field; when the call resolves the field
    shows the mask, the provider is saved and its key hidden; when the call
    rejects, fields and saved flags stay as they were; in both cases the
    provider is no longer marked as saving. *)
Theorem dialog_save_sends_the_field_once
  (setApiKey : string → SettingsDialog.ustring → result unit)
  (id : string) (st : SettingsDialog.State) :
  let r := SettingsDialog.saveApiKey setApiKey id st in
  match SettingsDialog.apiKeys st !! id with
  | None => r = (st, [])
  | Some key =>
      if bool_decide (key = []) || bool_decide (key = SettingsDialog.MASK)
      then r = (st, [])
      else
        r.2 = [(id, key)] ∧
        SettingsDialog.saving r.1 !! id = Some false ∧
        match setApiKey id key with
        | Ok _ =>
            SettingsDialog.apiKeys r.1 !! id = Some SettingsDialog.MASK ∧
            SettingsDialog.savedKeys r.1 !! id = Some true ∧
            SettingsDialog.showKeys r.1 !! id = Some false
        | Throw _ =>
            SettingsDialog.apiKeys r.1 = SettingsDialog.apiKeys st ∧
            SettingsDialog.savedKeys r.1 = SettingsDialog.savedKeys st ∧
            SettingsDialog.showKeys r.1 = SettingsDialog.showKeys st
        end
  end.
Proof.
  intros r. subst r. unfold SettingsDialog.saveApiKey.
  destruct (SettingsDialog.apiKeys st !! id) as [key|]; [|done].
  destruct (bool_decide (key = []) || bool_decide (key = SettingsDialog.MASK));
    [done|].
  destruct (setApiKey id key); simpl; by rewrite !lookup_insert_eq.
Qed.

(** X21. What is typed is what is sent: after [handleKeyChange] has stored
    a value that is neither empty nor the mask, [saveApiKey] calls
    [setApiKey] with exactly that value; in particular a key typed after the
    mask is sent without the mask. *)
Theorem dialog_typed_key_is_sent
  (setApiKey : string → SettingsDialog.ustring → result unit)
  (id : string) (typed : SettingsDialog.ustring) (st : SettingsDialog.State)
  (Hmask : SettingsDialog.apiKeys st !! id = Some SettingsDialog.MASK)
  (Hne : typed ≠ []) (Hnm : typed ≠ SettingsDialog.MASK) :
  (SettingsDialog.saveApiKey setApiKey id
     (SettingsDialog.handleKeyChange id (SettingsDialog.MASK ++ typed) st)).2
  = [(id, typed)].
Proof.
  rewrite dialog_change_strips_mask by done.
  unfold SettingsDialog.saveApiKey. simpl. rewrite lookup_insert_eq.
  rewrite (bool_decide_eq_false_2 _ Hne), (bool_decide_eq_false_2 _ Hnm). simpl.
  by destruct (setApiKey id typed).
Qed.

Lemma dialog_typed_key_is_sent_witness :
  (SettingsDialog.saveApiKey (λ _ _, Ok tt) "zai"
     (SettingsDialog.handleKeyChange "zai" (SettingsDialog.MASK ++ [97; 98]%N)
        (SettingsDialog.mkState {[ "zai" := SettingsDialog.MASK ]} ∅ ∅ ∅ false))).2
  = [("zai", [97; 98]%N)].
Proof.
  apply dialog_typed_key_is_sent; [reflexivity | discriminate | discriminate].
Defined.

(** Showing and hiding a key: [toggleShowKey] flips the visibility of one
    provider, twice gives back the visibility there was, and the other
    providers are not concerned. *)
Lemma dialog_toggle_twice id other st :
  other ≠ id →
  let shown s i := default false (SettingsDialog.showKeys s !! i) in
  shown (SettingsDialog.toggleShowKey id st) id = negb (shown st id) ∧
  shown (SettingsDialog.toggleShowKey id (SettingsDialog.toggleShowKey id st)) id
    = shown st id ∧
  shown (SettingsDialog.toggleShowKey id st) other = shown st other.
Proof.
  intros Hne shown. subst shown. unfold SettingsDialog.toggleShowKey. simpl.
  rewrite !lookup_insert_eq, lookup_insert_ne by done. simpl.
  by rewrite negb_involutive.
Qed.

Lemma workspace_get_lookup tid w :
  tid ≠ "" →
  workspace_get (Some tid) w =
  truthy (workspacePath_of (metadata_of (getThread tid w))).
Proof.
  intros Htid. unfold workspace_get. rewrite (truthy_id tid Htid).
  unfold metadata_of. destruct (getThread tid w) as [th|]; [|done].
  by destruct (t_metadata th).
Qed.

Lemma with_log_cons_neq w e lg : with_log w (e :: lg) ≠ w.
Proof. intros H. by apply with_log_inv in H. Qed.

(** X23. [workspace:get] and the readers agree on what a binding is.  For a
    session identifier, [workspace:get] answers [null] exactly when
    [workspace:readFile], [workspace:readBinaryFile] and
    [workspace:loadFromDisk] return their ['No workspace folder linked']
    failure with nothing done; and it answers a path exactly when
    [workspace:loadFromDisk] begins by reading that directory, in which case
    a single-file read is checked against that root and, when admitted,
    goes to [fs.stat] of the path joined to it. *)
Theorem workspace_get_agrees_with_readers
  (cwd : string) (disk : Disk) (tid p filePath : string) (w : World)
  (Htid : tid ≠ "") :
  (workspace_get (Some tid) w = None ↔
   workspace_readFile cwd disk tid filePath w =
     (ReadFail "No workspace folder linked", w)) ∧
  (workspace_get (Some tid) w = None ↔
   workspace_readBinaryFile cwd disk tid filePath w =
     (ReadFail "No workspace folder linked", w)) ∧
  (workspace_get (Some tid) w = None ↔
   workspace_loadFromDisk disk tid w =
     (LoadFail "No workspace folder linked" [], w)) ∧
  (workspace_get (Some tid) w = Some p ↔
   ∃ rest, w_log (workspace_loadFromDisk disk tid w).2 =
           w_log w ++ FsReaddir p :: rest) ∧
  (workspace_get (Some tid) w = Some p →
   let fullPath := Path.join p (strip_slash filePath) in
   if inside_workspace cwd p fullPath
   then ∃ rest, w_log (workspace_readFile cwd disk tid filePath w).2 =
                w_log w ++ FsStat fullPath :: rest
   else workspace_readFile cwd disk tid filePath w =
          (ReadFail "Access denied: path outside workspace", w)).
Proof.
  rewrite (workspace_get_lookup tid w Htid).
  assert (Hread : ∀ decode,
            truthy (workspacePath_of (metadata_of (getThread tid w))) = None ↔
            read_handler cwd disk decode tid filePath w =
              (ReadFail "No workspace folder linked", w)).
  { intros decode. split.
    - intros Hu%unbound_lookup. by apply read_handler_unbound.
    - intros H.
      destruct (truthy (workspacePath_of (metadata_of (getThread tid w))))
        as [ws|] eqn:Hb; [|done].
      apply bound_lookup in Hb.
      rewrite (read_handler_cases decode cwd disk tid ws filePath w Hb) in H.
      destruct (negb _); [discriminate H|].
      apply (f_equal snd) in H.
      destruct (fs_stat disk _) as [stat|e].
      + destruct (st_isDirectory stat).
        * by apply with_log_cons_neq in H.
        * destruct (fs_readFile disk _); by apply with_log_cons_neq in H.
      + by apply with_log_cons_neq in H. }
  assert (Hload : ∀ ws, bound_to w tid ws →
            ∃ rest, w_log (workspace_loadFromDisk disk tid w).2 =
                    w_log w ++ FsReaddir ws :: rest).
  { intros ws Hb. pose proof (loadFromDisk_cases disk tid ws w Hb) as H.
    destruct (fs_readdir disk ws) as [es|e].
    - destruct H as (lg & _ & H). destruct (first_failure es); rewrite H; simpl.
      + by exists lg.
      + exists (lg ++ [WatchStart tid ws]). by rewrite <- app_assoc.
    - rewrite H. by exists []. }
  split; [apply Hread|]. split; [apply Hread|]. split; [|split].
  - split.
    + intros Hu%unbound_lookup. by apply loadFromDisk_unbound.
    + intros H.
      destruct (truthy (workspacePath_of (metadata_of (getThread tid w))))
        as [ws|] eqn:Hb; [|done].
      apply bound_lookup in Hb. destruct (Hload ws Hb) as (rest & Hl).
      rewrite H in Hl. simpl in Hl.
      apply (f_equal length) in Hl. rewrite length_app in Hl. simpl in Hl. lia.
  - split.
    + intros Hb%bound_lookup. by apply Hload.
    + intros (rest & Hl).
      destruct (truthy (workspacePath_of (metadata_of (getThread tid w))))
        as [ws|] eqn:Hb.
      * apply bound_lookup in Hb. destruct (Hload ws Hb) as (rest' & Hl').
        rewrite Hl in Hl'. apply app_inv_head in Hl'. by injection Hl' as -> _.
      * apply unbound_lookup in Hb. rewrite loadFromDisk_unbound in Hl by done.
        simpl in Hl. apply (f_equal length) in Hl. rewrite length_app in Hl.
        simpl in Hl. lia.
  - intros Hb%bound_lookup fullPath. unfold workspace_readFile.
    rewrite (read_handler_cases _ cwd disk tid p filePath w Hb). fold fullPath.
    destruct (inside_workspace cwd p fullPath); simpl; [|done].
    destruct (fs_stat disk fullPath) as [stat|e]; [|by exists []].
    destruct (st_isDirectory stat); [by exists []|].
    destruct (fs_readFile disk fullPath); by exists [FsReadFile fullPath].
Qed.

Lemma workspace_get_agrees_with_readers_witness :
  "t2" ≠ "" ∧
  (workspace_get (Some "t2") world0 = None ↔
   workspace_readFile "/home/u" disk0 "t2" "/a" world0 =
     (ReadFail "No workspace folder linked", world0)).
Proof.
  split; [discriminate|].
  apply (workspace_get_agrees_with_readers "/home/u" disk0 "t2" "" "/a" world0).
  discriminate.
Defined.
